(** * oglwrap: buffer objects, transform feedback and bit fields

    A shallow embedding of the wrapper classes of oglwrap
    ([buffer.hpp], [transfeedback.hpp], [general.hpp], [config.hpp]) over a
    small model of the OpenGL driver they forward to, and the properties of
    the wrappers proved on it.

    Part I holds the definitions, Part II the lemmas and theorems. *)

From stdpp Require Import base option list gmap strings.
From Stdlib Require Import ZArith Lia.

Open Scope Z_scope.

(** * Part I: definitions *)

(** ** Machine integers

    The OpenGL scalar types are fixed-width integers.  They are carried as
    [Z]; every conversion the C++ code performs is written out as a wrap. *)

Module Int.

Definition wrap_unsigned (w x : Z) : Z := x mod 2 ^ w.

Definition wrap_signed (w x : Z) : Z :=
  (x + 2 ^ (w - 1)) mod 2 ^ w - 2 ^ (w - 1).

End Int.

(** [GLuint], [GLbitfield] and [GLenum] are 32-bit unsigned, [GLint] and
    [GLsizei] 32-bit signed; [GLintptr] and [GLsizeiptr] are [ptrdiff_t] and
    [size_t] is 64-bit unsigned (LP64). *)
Definition to_GLuint : Z -> Z := Int.wrap_unsigned 32.
Definition to_GLbitfield : Z -> Z := Int.wrap_unsigned 32.
Definition to_GLint : Z -> Z := Int.wrap_signed 32.
Definition to_GLsizei : Z -> Z := Int.wrap_signed 32.
Definition to_GLsizeiptr : Z -> Z := Int.wrap_signed 64.
Definition to_GLintptr : Z -> Z := Int.wrap_signed 64.
Definition to_size_t : Z -> Z := Int.wrap_unsigned 64.

Definition is_GLuint (x : Z) : Prop := 0 <= x < 2 ^ 32.

(** An object name as [glGen*] hands it out: a non-zero [GLuint]. *)
Definition is_name (x : Z) : Prop := 0 < x < 2 ^ 32.

(** ** [general.hpp]: [Bitfield<Bit>] *)

Module Bitfield.
Section Bitfield.

(** [Bit] is the enumeration of the flags; [underlying] gives an
    enumerator's integer value, and [wide] tells whether the enumeration
    promotes to a 64-bit integer type (it promotes to [int] or
    [unsigned int] otherwise). *)
Context {Bit : Type} (underlying : Bit -> Z) (wide : bool).

(** The conversion of an enumerator to [GLbitfield]. *)
Definition GLbitfield_of (b : Bit) : Z := to_GLbitfield (underlying b).

(** An enumerator in the type in which [bits_ & b] and [... == b] are
    evaluated, [bits_] being an [unsigned int]: a flag of a 32-bit type is
    converted to [unsigned int]; against a 64-bit type it is [bits_] that is
    widened, and the flag keeps its value. *)
Definition in_common_type (b : Bit) : Z :=
  if wide then underlying b else to_GLbitfield (underlying b).

Record t : Type := mk { bits_ : Z }.

(** [Bitfield() : bits_(0)] *)
Definition empty : t := mk 0.

(** [Bitfield(GLbitfield bits) : bits_(bits)] *)
Definition of_bits (bits : Z) : t := mk (to_GLbitfield bits).

(** [Bitfield(Bit bit) : bits_(GLbitfield(bit))] *)
Definition of_bit (bit : Bit) : t := mk (GLbitfield_of bit).

(** [Bitfield(const std::initializer_list<Bit>& bits)]: starts from
    [bits_ = 0] and runs [bits_ |= b] over the list. *)
Definition of_list (bits : list Bit) : t :=
  mk (fold_left (fun acc b => Z.lor acc (GLbitfield_of b)) bits 0).

(** [operator GLbitfield()] *)
Definition to_bits (f : t) : Z := bits_ f.

(** [operator|(Bitfield)] and [operator|(Bit)].  The result is built with
    braces, [Bitfield{bits_ | b}]; an integer does not convert to [Bit], so
    the constructor chosen is [Bitfield(GLbitfield)].  With a flag of a
    64-bit type the operand is 64 bits wide and its conversion to
    [GLbitfield] narrows: a compiler rejects that or performs it with a
    warning, and [of_bits] is what it then performs.  The same holds of
    [operator&(Bit)] and [operator^(Bit)]. *)
Definition or (f b : t) : t := of_bits (Z.lor (bits_ f) (bits_ b)).
Definition or_bit (f : t) (b : Bit) : t :=
  of_bits (Z.lor (bits_ f) (GLbitfield_of b)).

(** [operator&(Bitfield)] and [operator&(Bit)] *)
Definition and (f b : t) : t := of_bits (Z.land (bits_ f) (bits_ b)).
Definition and_bit (f : t) (b : Bit) : t :=
  of_bits (Z.land (bits_ f) (GLbitfield_of b)).

(** [operator^(Bitfield)] and [operator^(Bit)] *)
Definition xor (f b : t) : t := of_bits (Z.lxor (bits_ f) (bits_ b)).
Definition xor_bit (f : t) (b : Bit) : t :=
  of_bits (Z.lxor (bits_ f) (GLbitfield_of b)).

(** [bool test(Bit b) const { return (bits_ & b) == b; }] *)
Definition test (f : t) (b : Bit) : bool :=
  Z.land (bits_ f) (in_common_type b) =? in_common_type b.

(** [bool test(Bitfield b) const { return (bits_ & b) == b; }] *)
Definition test_field (f b : t) : bool :=
  Z.land (bits_ f) (to_bits b) =? to_bits b.

End Bitfield.
End Bitfield.

(** A flag that fits the field: its enumeration is of a 32-bit type, or its
    value is one a [GLbitfield] can hold. *)
Definition fits_GLbitfield {Bit : Type} (underlying : Bit -> Z) (wide : bool)
  (b : Bit) : Prop :=
  wide = false \/ 0 <= underlying b < 2 ^ 32.

(** The flags of [glMapBufferRange], with the values of the [GL_MAP_*_BIT]
    constants. *)
Inductive BufferMapAccessFlags : Type :=
| Read_Bit | Write_Bit | InvalidateRange_Bit | InvalidateBuffer_Bit
| FlushExplicit_Bit | Unsynchronized_Bit.

Definition BufferMapAccessFlags_value (b : BufferMapAccessFlags) : Z :=
  match b with
  | Read_Bit => 1
  | Write_Bit => 2
  | InvalidateRange_Bit => 4
  | InvalidateBuffer_Bit => 8
  | FlushExplicit_Bit => 16
  | Unsynchronized_Bit => 32
  end.

(** ** [config.hpp]: the configuration macros

    A macro is either left undefined by the user or defined to an integer;
    [#if M] holds when [M] is defined and non-zero. *)

Record Config : Type := mkConfig {
  user_OGLWRAP_DEBUG : option Z;
  user_OGLWRAP_BINDCHECK : option Z
}.

Definition pp_true (m : option Z) : bool :=
  match m with
  | Some v => negb (v =? 0)
  | None => false
  end.

(** [#ifndef OGLWRAP_DEBUG] / [#define OGLWRAP_DEBUG 1] *)
Definition OGLWRAP_DEBUG (cfg : Config) : option Z :=
  match user_OGLWRAP_DEBUG cfg with
  | Some v => Some v
  | None => Some 1
  end.

(** [#if OGLWRAP_DEBUG] / [#ifndef OGLWRAP_BINDCHECK] /
    [#define OGLWRAP_BINDCHECK 1] *)
Definition OGLWRAP_BINDCHECK (cfg : Config) : option Z :=
  if pp_true (OGLWRAP_DEBUG cfg) then
    match user_OGLWRAP_BINDCHECK cfg with
    | Some v => Some v
    | None => Some 1
    end
  else user_OGLWRAP_BINDCHECK cfg.

(** The validation flag: [#if OGLWRAP_BINDCHECK]. *)
Definition bindcheck (cfg : Config) : bool := pp_true (OGLWRAP_BINDCHECK cfg).

(** ** The driver

    Every [gl(...)] of the wrappers is one driver call.  The driver is the
    host's, not the library's; it is modelled as far as the wrappers
    observe it: a bind call sets the binding of its target, a binding query
    reads it back, [glBufferData] sets the size of the bound buffer's data
    store, and each call is appended to [calls], in the order of issue. *)

Inductive GLpname : Type :=
| BUFFER_BINDING (target : Z)
| GL_VERTEX_ARRAY_BINDING
| GL_BUFFER_SIZE.

Inductive GLcall : Type :=
| BindBuffer (target buffer : Z)
| GetIntegerv (pname : GLpname)
| BufferData (target size data usage : Z)
| BufferSubData (target offset size data : Z)
| GetBufferParameteriv (target : Z) (pname : GLpname)
| MapBuffer (target access : Z)
| MapBufferRange (target offset length access : Z)
| GenTransformFeedbacks
| DeleteTransformFeedbacks (name : Z)
| BindTransformFeedback (target name : Z)
| BeginTransformFeedback (mode : Z)
| EndTransformFeedback
| PauseTransformFeedback
| ResumeTransformFeedback.

Record Driver : Type := mkDriver {
  buffer_binding : gmap Z Z;
  vertex_array_binding : Z;
  transform_feedback_binding : Z;
  buffer_size : gmap Z Z;
  map_base : Z;
  names_generated : nat;
  calls : list GLcall
}.

(** The buffer bound to a target; [0] when nothing is. *)
Definition bound_buffer (d : Driver) (target : Z) : Z :=
  default 0 (buffer_binding d !! target).

(** What a call returns (through its result or its out-parameter). *)
Definition answer (c : GLcall) (d : Driver) : Z :=
  match c with
  | GetIntegerv (BUFFER_BINDING target) => to_GLint (bound_buffer d target)
  | GetIntegerv GL_VERTEX_ARRAY_BINDING => to_GLint (vertex_array_binding d)
  | GetBufferParameteriv target GL_BUFFER_SIZE =>
      to_GLint (default 0 (buffer_size d !! bound_buffer d target))
  | MapBuffer target _ =>
      if bound_buffer d target =? 0 then 0 else map_base d
  | MapBufferRange target offset _ _ =>
      if bound_buffer d target =? 0 then 0 else map_base d + offset
  | GenTransformFeedbacks => Z.of_nat (S (names_generated d))
  | _ => 0
  end.

(** What a call changes in the driver, the log apart. *)
Definition effect (c : GLcall) (d : Driver) : Driver :=
  match c with
  | BindBuffer target buffer =>
      mkDriver (<[target := buffer]> (buffer_binding d))
        (vertex_array_binding d) (transform_feedback_binding d)
        (buffer_size d) (map_base d) (names_generated d) (calls d)
  | BindTransformFeedback _ name =>
      mkDriver (buffer_binding d) (vertex_array_binding d) name
        (buffer_size d) (map_base d) (names_generated d) (calls d)
  | BufferData target size _ _ =>
      mkDriver (buffer_binding d) (vertex_array_binding d)
        (transform_feedback_binding d)
        (<[bound_buffer d target := size]> (buffer_size d))
        (map_base d) (names_generated d) (calls d)
  | GenTransformFeedbacks =>
      mkDriver (buffer_binding d) (vertex_array_binding d)
        (transform_feedback_binding d) (buffer_size d) (map_base d)
        (S (names_generated d)) (calls d)
  | _ => d
  end.

Definition record (c : GLcall) (d : Driver) : Driver :=
  mkDriver (buffer_binding d) (vertex_array_binding d)
    (transform_feedback_binding d) (buffer_size d) (map_base d)
    (names_generated d) (calls d ++ [c]).

Definition issue (c : GLcall) (d : Driver) : Z * Driver :=
  (answer c d, record c (effect c d)).

(** ** The program state and its monad

    Beside the driver, the program holds the control blocks of its shared
    handles.  A block is shared by every owner of the handle, so the owners
    refer to it by its location. *)

Record HandleBlock : Type := mkHandle {
  id : Z;
  refcount : nat
}.

Record World : Type := mkWorld {
  driver : Driver;
  handles : gmap nat HandleBlock
}.

Inductive Error : Type := BindingError | StateError.

(** A wrapper method either returns or throws, and changes the world. *)
Definition GL (A : Type) : Type := World -> (Error + A) * World.

#[export] Instance GL_ret : MRet GL := fun A (a : A) w => (inr a, w).

#[export] Instance GL_bind : MBind GL := fun A B (k : A -> GL B) (m : GL A) w =>
  match m w with
  | (inr a, w') => k a w'
  | (inl e, w') => (inl e, w')
  end.

Definition throw {A : Type} (e : Error) : GL A := fun w => (inl e, w).

(** [gl(Call(...))] *)
Definition gl (c : GLcall) : GL Z := fun w =>
  let '(r, d) := issue c (driver w) in (inr r, mkWorld d (handles w)).

(** The calls issued between two worlds. *)
Definition issued (w w' : World) : list GLcall :=
  drop (length (calls (driver w))) (calls (driver w')).

(** Modelled from the spec: [getBindingTarget(BUFFER_TYPE)], declared with
    the enumerations and not among the sources, gives the name under which
    the binding of a target is queried ("query(target_category) -> id reads
    back the true state directly from the driver"). *)
Definition getBindingTarget (target : Z) : GLpname := BUFFER_BINDING target.

(** ** [debug/binding.hpp]: the binding checks *)

(** Modelled from the spec: the macros [CHECK_BINDING] and [CHECK_BINDING2]
    of [debug/binding.hpp], which is not among the sources.  They are the
    spec's [require_current()]: active only when validation is enabled,
    failing with a [BindingError] if [is_current()] is false.  The object's
    [isBound()] is passed as [isBound]. *)
Definition CHECK_BINDING (cfg : Config) (isBound : GL bool) : GL unit :=
  if bindcheck cfg then
    b ← isBound; if b : bool then mret () else throw BindingError
  else mret ().

Definition CHECK_BINDING2 (cfg : Config) (isBound : GL bool) : GL unit :=
  CHECK_BINDING cfg isBound.

(** ** Shared handles *)

Module Handle.
Section Handle.

(** The creation and deletion calls of the kind of object, the template
    arguments of [ObjectExt<glGen..., glDelete...>]. *)
Variable (gen : GLcall) (del : Z -> GLcall).

Definition set_block (h : nat) (b : HandleBlock) : GL unit := fun w =>
  (inr (), mkWorld (driver w) (<[h := b]> (handles w))).

Definition get_block (h : nat) : GL (option HandleBlock) := fun w =>
  (inr (handles w !! h), w).

(** Modelled from the spec: [create()] of the handle class ([globjects.hpp]
    is not among the sources) allocates a new server-side resource and
    returns a Handle with refcount 1. *)
Definition create : GL nat := fun w =>
  let h := fresh (dom (handles w)) in
  (name ← gl gen; set_block h (mkHandle name 1);; mret h) w.

(** Modelled from the spec: [clone()] increments refcount and returns a new
    owner view. *)
Definition clone (h : nat) : GL nat :=
  b ← get_block h;
  match b with
  | Some b => set_block h (mkHandle (id b) (S (refcount b)));; mret h
  | None => mret h
  end.

(** Modelled from the spec: [release()] decrements refcount, and at zero,
    issues the deletion call and marks id = 0; after the refcount has
    dropped to 0 a subsequent [release()] is a no-op. *)
Definition release (h : nat) : GL unit :=
  b ← get_block h;
  match b with
  | Some (mkHandle name (S O)) =>
      gl (del name);; set_block h (mkHandle 0 0)
  | Some (mkHandle name (S n)) => set_block h (mkHandle name n)
  | Some (mkHandle _ O) => mret ()
  | None => mret ()
  end.

(** Modelled from the spec: [isDeletable()] of the handle class; the
    destructor that calls it deletes the object "if only one instance of it
    exists", so it tells whether this owner is the last one. *)
Definition isDeletable (h : nat) : GL bool :=
  b ← get_block h;
  mret (match b with Some b => Nat.eqb (refcount b) 1 | None => false end).

(** The conversion of a handle to the [GLuint] name it holds. *)
Definition expose (h : nat) : GL Z :=
  b ← get_block h; mret (default 0 (id <$> b)).

(** [n] releases of the same handle in a row. *)
Fixpoint releases (n : nat) (h : nat) : GL unit :=
  match n with
  | O => mret ()
  | S n => release h;; releases n h
  end.

End Handle.
End Handle.

(** ** [transfeedback.hpp]: [TransformFeedback] *)

Definition GL_TRANSFORM_FEEDBACK : Z := 36386.

Module TransformFeedback.

Inductive TFBstate : Type := none | working | paused.

Record t : Type := mk {
  handle : nat;
  state : TFBstate
}.

Definition TFBstate_eqb (a b : TFBstate) : bool :=
  match a, b with
  | none, none | working, working | paused, paused => true
  | _, _ => false
  end.

Definition handle_create : GL nat := Handle.create GenTransformFeedbacks.
Definition handle_release : nat -> GL unit :=
  Handle.release DeleteTransformFeedbacks.

(** [void bind() const] *)
Definition bind (tf : t) : GL unit :=
  name ← Handle.expose (handle tf);
  gl (BindTransformFeedback GL_TRANSFORM_FEEDBACK name);; mret ().

(** [void unbind() const] *)
Definition unbind (tf : t) : GL unit :=
  gl (BindTransformFeedback GL_TRANSFORM_FEEDBACK 0);; mret ().

(** [void begin(TFB_PrimType mode)]: [state = working;] then the call.  The
    methods that assign [state] return the object as they leave it. *)
Definition begin (mode : Z) (tf : t) : GL t :=
  let tf := mk (handle tf) working in
  gl (BeginTransformFeedback mode);; mret tf.

(** [void end()] *)
Definition end_ (tf : t) : GL t :=
  let tf := mk (handle tf) none in
  gl EndTransformFeedback;; mret tf.

(** [void pause()] *)
Definition pause (tf : t) : GL t :=
  let tf := mk (handle tf) paused in
  gl PauseTransformFeedback;; mret tf.

(** [void resume()] *)
Definition resume (tf : t) : GL t :=
  let tf := mk (handle tf) working in
  gl ResumeTransformFeedback;; mret tf.

(** [TransformFeedback() : state(none) {}] *)
Definition new : GL t :=
  h ← handle_create; mret (mk h none).

(** [TransformFeedback(TFB_PrimType mode) : state(working)] *)
Definition new_active (mode : Z) : GL t :=
  h ← handle_create;
  let tf := mk h working in
  bind tf;; begin mode tf.

(** The implicit copy constructor: the handle is cloned, the state copied. *)
Definition copy (tf : t) : GL t :=
  h ← Handle.clone (handle tf); mret (mk h (state tf)).

(** The body of [~TransformFeedback()]. *)
Definition destructor_body (tf : t) : GL unit :=
  deletable ← Handle.isDeletable (handle tf);
  if negb deletable then mret ()
  else if negb (TFBstate_eqb (state tf) none) then
    bind tf;; end_ tf;; mret ()
  else mret ().

(** Destroying the object: the destructor's body, then the destructor of
    the member [handle], which releases it. *)
Definition destroy (tf : t) : GL unit :=
  destructor_body tf;; handle_release (handle tf).

End TransformFeedback.

(** ** [buffer.hpp]: [BufferObject<BUFFER_TYPE>] *)

(** [std::vector<GLtype>], as far as the wrappers look at it: its [size()]
    and its [data()] pointer. *)
Record std_vector : Type := mkVector {
  v_size : Z;
  v_data : Z
}.

Module BufferType.
Definition Array : Z := 34962.
Definition ElementArray : Z := 34963.
Definition Texture : Z := 35882.
Definition Uniform : Z := 35345.
Definition TransformFeedback : Z := 35982.
End BufferType.

Module BufferUsage.
Definition StaticDraw : Z := 35044.
End BufferUsage.

Module BufferMapAccess.
Definition ReadWrite : Z := 35002.
End BufferMapAccess.

Module BufferObject.

Record t : Type := mk { buffer_ : Z }.

(** [TypedMap<T>] *)
Record TypedMap : Type := mkMap {
  m_data : Z;
  m_size : Z
}.

Section BufferObject.

Variable cfg : Config.

(** The template argument. *)
Variable BUFFER_TYPE : Z.

(** The macros [CHECK_FOR_DEFAULT_BINDING] and
    [CHECK_FOR_DEFAULT_BINDING_EXPLICIT] are defined in [debug/binding.hpp],
    which is not among the sources, and the specification does not describe
    them.  They are parameters here: each is handed the name of a binding
    and no object, and its expansion may call the driver and may throw. *)
Variable CHECK_FOR_DEFAULT_BINDING : GLpname -> GL unit.
Variable CHECK_FOR_DEFAULT_BINDING_EXPLICIT : GLpname -> GL unit.

(** [void bind() const] *)
Definition bind (b : t) : GL unit :=
  gl (BindBuffer BUFFER_TYPE (buffer_ b));; mret ().

(** [bool isBound() const] *)
Definition isBound (b : t) : GL bool :=
  currentlyBoundBuffer ← gl (GetIntegerv (getBindingTarget BUFFER_TYPE));
  mret (buffer_ b =? to_GLuint currentlyBoundBuffer).

(** [static void Unbind()] *)
Definition Unbind : GL unit :=
  gl (BindBuffer BUFFER_TYPE 0);; mret ().

(** [BIND_CHECKED void unbind() const] *)
Definition unbind (b : t) : GL unit :=
  CHECK_BINDING2 cfg (isBound b);; Unbind.

(** [static void Data(GLsizei size, const GLtype* data, BufferUsage usage)]:
    [size] arrives as a [GLsizei] and is handed on as the [GLsizeiptr] of
    [glBufferData]. *)
Definition Data (size data usage : Z) : GL unit :=
  let size := to_GLsizei size in
  gl (BufferData BUFFER_TYPE (to_GLsizeiptr size) data usage);; mret ().

(** The check that [data] and [subData] share. *)
Definition check_upload (b : t) : GL unit :=
  CHECK_BINDING cfg (isBound b);;
  if BUFFER_TYPE =? BufferType.Array then
    CHECK_FOR_DEFAULT_BINDING_EXPLICIT GL_VERTEX_ARRAY_BINDING
  else mret ().

(** [BIND_CHECKED void data(GLsizei size, const GLtype* data,
    BufferUsage usage) const] *)
Definition data (b : t) (size data usage : Z) : GL unit :=
  check_upload b;; Data size data usage.

(** [static void Data(const std::vector<GLtype>& data, BufferUsage usage)]:
    the size is computed in [size_t]. *)
Definition Data_vector (sizeof_GLtype : Z) (data : std_vector) (usage : Z)
  : GL unit :=
  gl (BufferData BUFFER_TYPE
        (to_GLsizeiptr (to_size_t (v_size data * sizeof_GLtype)))
        (v_data data) usage);; mret ().

(** [BIND_CHECKED void data(const std::vector<GLtype>& data,
    BufferUsage usage) const] *)
Definition data_vector (b : t) (sizeof_GLtype : Z) (data : std_vector)
  (usage : Z) : GL unit :=
  check_upload b;; Data_vector sizeof_GLtype data usage.

(** [static void SubData(GLintptr offset, GLsizei size, const GLtype* data)] *)
Definition SubData (offset size data : Z) : GL unit :=
  let offset := to_GLintptr offset in
  let size := to_GLsizei size in
  gl (BufferSubData BUFFER_TYPE offset (to_GLsizeiptr size) data);; mret ().

(** [BIND_CHECKED void subData(GLintptr offset, GLsizei size,
    const GLtype* data) const] *)
Definition subData (b : t) (offset size data : Z) : GL unit :=
  check_upload b;; SubData offset size data.

(** [static void SubData(GLintptr offset, const std::vector<GLtype>& data)] *)
Definition SubData_vector (sizeof_GLtype : Z) (offset : Z) (data : std_vector)
  : GL unit :=
  let offset := to_GLintptr offset in
  gl (BufferSubData BUFFER_TYPE offset
        (to_GLsizeiptr (to_size_t (v_size data * sizeof_GLtype)))
        (v_data data));; mret ().

(** [BIND_CHECKED void subData(GLintptr offset,
    const std::vector<GLtype>& data) const] *)
Definition subData_vector (b : t) (sizeof_GLtype : Z) (offset : Z)
  (data : std_vector) : GL unit :=
  check_upload b;; SubData_vector sizeof_GLtype offset data.

(** [static size_t Size()] *)
Definition Size : GL Z :=
  data ← gl (GetBufferParameteriv BUFFER_TYPE GL_BUFFER_SIZE);
  mret (to_size_t data).

(** [BIND_CHECKED size_t size() const] *)
Definition size (b : t) : GL Z :=
  CHECK_BINDING cfg (isBound b);; Size.

(** [TypedMap(BufferMapAccess access)]: a constructor of the nested class;
    it has no [BufferObject] at hand. *)
Definition Map (access : Z) : GL TypedMap :=
  CHECK_FOR_DEFAULT_BINDING (getBindingTarget BUFFER_TYPE);;
  m_data ← gl (MapBuffer BUFFER_TYPE access);
  m_size ← Size;
  mret (mkMap m_data m_size).

(** [TypedMap(GLintptr offset, GLsizeiptr length,
    Bitfield<BufferMapAccessFlags> access)] *)
Definition Map_range (offset length : Z) (access : Bitfield.t) : GL TypedMap :=
  let offset := to_GLintptr offset in
  let length := to_GLsizeiptr length in
  CHECK_FOR_DEFAULT_BINDING (getBindingTarget BUFFER_TYPE);;
  m_data ← gl (MapBufferRange BUFFER_TYPE offset length (Bitfield.to_bits access));
  m_size ← Size;
  mret (mkMap m_data m_size).

(** The default [access] of the range constructor:
    [{BufferMapAccessFlags::Read_Bit, BufferMapAccessFlags::Write_Bit}]. *)
Definition Map_range_default_access : Bitfield.t :=
  Bitfield.of_list BufferMapAccessFlags_value [Read_Bit; Write_Bit].

End BufferObject.
End BufferObject.

(** ** The two overload families side by side

    The pointer overload, called with [size = v.size() * sizeof(GLtype)] and
    [ptr = v.data()]. *)

Definition Data_of_vector (BUFFER_TYPE sizeof_GLtype : Z) (v : std_vector)
  (usage : Z) : GL unit :=
  BufferObject.Data BUFFER_TYPE (to_size_t (v_size v * sizeof_GLtype))
    (v_data v) usage.

Definition SubData_of_vector (BUFFER_TYPE sizeof_GLtype offset : Z)
  (v : std_vector) : GL unit :=
  BufferObject.SubData BUFFER_TYPE offset
    (to_size_t (v_size v * sizeof_GLtype)) (v_data v).

(** The name [isBound] compares a buffer with: the binding of the target as
    [glGetIntegerv] reports it, cast back to [GLuint]. *)
Definition currentlyBoundBuffer (BUFFER_TYPE : Z) (w : World) : Z :=
  to_GLuint (answer (GetIntegerv (getBindingTarget BUFFER_TYPE)) (driver w)).

(** ** What a call leaves alone *)

(** Two driver states with the same bindings. *)
Definition same_bindings (d d' : Driver) : Prop :=
  buffer_binding d' = buffer_binding d
  /\ vertex_array_binding d' = vertex_array_binding d
  /\ transform_feedback_binding d' = transform_feedback_binding d.

(** ** Sample worlds *)

(** A fresh context: nothing bound, no call made yet. *)
Definition driver0 : Driver := mkDriver ∅ 0 0 ∅ 4096 0 [].
Definition world0 : World := mkWorld driver0 ∅.

(** A context with the transform feedback object [1], whose handle block
    sits at location [0] and has [owners] owners. *)
Definition world_tf (owners : nat) : World :=
  mkWorld driver0 {[ 0%nat := mkHandle 1 owners ]}.

Definition tf_idle : TransformFeedback.t :=
  TransformFeedback.mk 0 TransformFeedback.none.
Definition tf_active : TransformFeedback.t :=
  TransformFeedback.mk 0 TransformFeedback.working.

(** A context in which buffer [2] is bound to [GL_ARRAY_BUFFER] and vertex
    array [1] is bound. *)
Definition world_bound : World :=
  mkWorld (mkDriver {[ BufferType.Array := 2 ]} 1 0 ∅ 4096 0 []) ∅.

(** A vector of [2^29] four-byte elements, two gibibytes of data. *)
Definition big_vector : std_vector := mkVector 536870912 65536.

(** One object and its copy: created Active, copied, and both destroyed,
    the copy first. *)
Definition two_owners : GL unit :=
  tf ← TransformFeedback.new_active 4;
  tf' ← TransformFeedback.copy tf;
  TransformFeedback.destroy tf';;
  TransformFeedback.destroy tf.

(** An enumeration of a 64-bit type with one flag above the 32 bits of
    [GLbitfield] and one within them. *)
Inductive WideFlags : Type := Hi | Lo.

Definition WideFlags_value (b : WideFlags) : Z :=
  match b with
  | Hi => 4294967296
  | Lo => 1
  end.

(** The empty expansion of a check macro: what a check that is compiled
    out leaves behind. *)
Definition compiled_out : GLpname -> GL unit := fun _ => mret ().

(** A context in which buffer [2], of ten bytes, is bound to
    [GL_ARRAY_BUFFER]. *)
Definition world_filled : World :=
  mkWorld (mkDriver {[ BufferType.Array := 2 ]} 1 0 {[ 2 := 10 ]} 4096 0 []) ∅.

(** Two driver states with the same buffers: the same bindings and the
    same data stores. *)
Definition same_buffers (d d' : Driver) : Prop :=
  buffer_binding d' = buffer_binding d /\ buffer_size d' = buffer_size d.

(** The configuration in which the user defines no macro. *)
Definition default_config : Config := mkConfig None None.

(** A configuration with [-DOGLWRAP_DEBUG=0]. *)
Definition release_config : Config := mkConfig (Some 0) None.

(** ** [general.hpp]: the compound assignments of [Bitfield] *)

Module BitfieldAssign.
Section BitfieldAssign.

Context {Bit : Type} (underlying : Bit -> Z).

(** [Bitfield& operator|=(Bitfield b) { bits_ |= b.bits_; return *this; }]
    and its [Bit] overload; the object is returned as the assignment leaves
    it. *)
Definition or_assign (f b : Bitfield.t) : Bitfield.t :=
  Bitfield.mk (Z.lor (Bitfield.bits_ f) (Bitfield.bits_ b)).
Definition or_assign_bit (f : Bitfield.t) (b : Bit) : Bitfield.t :=
  Bitfield.mk (Z.lor (Bitfield.bits_ f) (Bitfield.GLbitfield_of underlying b)).

(** [operator&=(Bitfield)] and [operator&=(Bit)] *)
Definition and_assign (f b : Bitfield.t) : Bitfield.t :=
  Bitfield.mk (Z.land (Bitfield.bits_ f) (Bitfield.bits_ b)).
Definition and_assign_bit (f : Bitfield.t) (b : Bit) : Bitfield.t :=
  Bitfield.mk (Z.land (Bitfield.bits_ f) (Bitfield.GLbitfield_of underlying b)).

(** [operator^=(Bitfield)] and [operator^=(Bit)] *)
Definition xor_assign (f b : Bitfield.t) : Bitfield.t :=
  Bitfield.mk (Z.lxor (Bitfield.bits_ f) (Bitfield.bits_ b)).
Definition xor_assign_bit (f : Bitfield.t) (b : Bit) : Bitfield.t :=
  Bitfield.mk (Z.lxor (Bitfield.bits_ f) (Bitfield.GLbitfield_of underlying b)).

End BitfieldAssign.
End BitfieldAssign.

(** A [Bitfield] as the class can hold it: [bits_] is a [GLbitfield]. *)
Definition Bitfield_wf (f : Bitfield.t) : Prop :=
  0 <= Bitfield.bits_ f < 2 ^ 32.

(** ** [buffer.hpp]: the rest of [BufferObject] and [TypedMap] *)

Module TypedMap.

(** [size_t size() const { return m_size; }] *)
Definition size (m : BufferObject.TypedMap) : Z := BufferObject.m_size m.

(** [size_t count() const { return m_size / sizeof(T); }], a division of
    [size_t] values. *)
Definition count (sizeof_T : Z) (m : BufferObject.TypedMap) : Z :=
  BufferObject.m_size m / sizeof_T.

(** [T* data() const] *)
Definition data (m : BufferObject.TypedMap) : Z := BufferObject.m_data m.

(** [typedef TypedMap<GLbyte> Map] *)
Definition sizeof_GLbyte : Z := 1.

End TypedMap.

(** ** [buffer.hpp]: [IndexedBufferObject<BUFFER_TYPE>]

    The indexed targets have one binding point per index.  The driver is
    modelled as far as the indexed wrappers observe it: [glBindBufferBase]
    and [glBindBufferRange] set the binding point of their index, and
    [glGetIntegeri_v] reads it back.  The calls have the parameters of
    the OpenGL functions, in their order:
    [glBindBufferRange(target, index, buffer, offset, size)]. *)

Module IndexedBufferObject.

Inductive call : Type :=
| BindBufferBase (target index buffer : Z)
| BindBufferRange (target index buffer offset size : Z)
| GetIntegeri_v (pname : GLpname) (index : Z).

Record IndexedDriver : Type := mkIndexed {
  indexed_binding : gmap (Z * Z) Z;
  indexed_calls : list call
}.

(** The buffer bound to an index of a target; [0] when nothing is. *)
Definition bound_at (d : IndexedDriver) (target index : Z) : Z :=
  default 0 (indexed_binding d !! (target, index)).

Definition answer (c : call) (d : IndexedDriver) : Z :=
  match c with
  | GetIntegeri_v (BUFFER_BINDING target) index =>
      to_GLint (bound_at d target index)
  | _ => 0
  end.

Definition effect (c : call) (d : IndexedDriver) : gmap (Z * Z) Z :=
  match c with
  | BindBufferBase target index buffer
  | BindBufferRange target index buffer _ _ =>
      <[(target, index) := buffer]> (indexed_binding d)
  | GetIntegeri_v _ _ => indexed_binding d
  end.

(** A method of the indexed wrappers either returns or throws, and changes
    the indexed driver state. *)
Definition IGL (A : Type) : Type :=
  IndexedDriver -> (Error + A) * IndexedDriver.

#[export] Instance IGL_ret : MRet IGL := fun A (a : A) d => (inr a, d).

#[export] Instance IGL_bind : MBind IGL :=
  fun A B (k : A -> IGL B) (m : IGL A) d =>
    match m d with
    | (inr a, d') => k a d'
    | (inl e, d') => (inl e, d')
    end.

Definition ithrow {A : Type} (e : Error) : IGL A := fun d => (inl e, d).

(** [gl(Call(...))] *)
Definition igl (c : call) : IGL Z := fun d =>
  (inr (answer c d), mkIndexed (effect c d) (indexed_calls d ++ [c])).

(** Modelled from the spec: the macro [CHECK_BINDING2_EXPLICIT] of
    [debug/binding.hpp], which is not among the sources: the spec's
    [require_current()] on the condition it is given, active only when
    validation is enabled and failing with a [BindingError] if the
    condition is false. *)
Definition CHECK_BINDING2_EXPLICIT (cfg : Config) (cond : IGL bool)
  : IGL unit :=
  if bindcheck cfg then
    b ← cond; if b : bool then mret () else ithrow BindingError
  else mret ().

Section IndexedBufferObject.

Variable cfg : Config.

(** The template argument, an [IndexedBufferType]. *)
Variable BUFFER_TYPE : Z.

(** [void bindBase(GLuint index) const] *)
Definition bindBase (b : BufferObject.t) (index : Z) : IGL unit :=
  let index := to_GLuint index in
  igl (BindBufferBase BUFFER_TYPE index (BufferObject.buffer_ b));; mret ().

(** [void bindRange(GLuint index, GLintptr offset, GLsizeiptr size) const]:
    the call is [gl(BindBufferRange(BUFFER_TYPE, index, offset, size,
    buffer_))].  The arguments are taken by position, so [offset] is
    converted to the [GLuint buffer] of the function, [size] to its
    [GLintptr offset] and [buffer_] to its [GLsizeiptr size]. *)
Definition bindRange (b : BufferObject.t) (index offset size : Z) : IGL unit :=
  let index := to_GLuint index in
  let offset := to_GLintptr offset in
  let size := to_GLsizeiptr size in
  igl (BindBufferRange BUFFER_TYPE index (to_GLuint offset) (to_GLintptr size)
         (to_GLsizeiptr (BufferObject.buffer_ b)));;
  mret ().

(** [bool isBound(GLuint index) const] *)
Definition isBound (b : BufferObject.t) (index : Z) : IGL bool :=
  let index := to_GLuint index in
  currentlyBoundBuffer ← igl (GetIntegeri_v (getBindingTarget BUFFER_TYPE) index);
  mret (BufferObject.buffer_ b =? to_GLuint currentlyBoundBuffer).

(** [static void UnbindBase(GLuint index)] *)
Definition UnbindBase (index : Z) : IGL unit :=
  let index := to_GLuint index in
  igl (BindBufferBase BUFFER_TYPE index 0);; mret ().

(** [BIND_CHECKED void unbindBase(GLuint index) const] *)
Definition unbindBase (b : BufferObject.t) (index : Z) : IGL unit :=
  CHECK_BINDING2_EXPLICIT cfg (isBound b index);; UnbindBase index.

End IndexedBufferObject.

(** Nothing bound, no call made. *)
Definition idriver0 : IndexedDriver := mkIndexed ∅ [].

End IndexedBufferObject.

(** ** Programs over [TransformFeedback] *)

(** A scoped [TransformFeedback tf(mode);]: constructed Active and
    destroyed at the end of the scope. *)
Definition scoped_feedback (mode : Z) : GL unit :=
  tf ← TransformFeedback.new_active mode;
  TransformFeedback.destroy tf.

(** An object is copied while Idle, the session is begun through the
    original, and the two are destroyed, the original first. *)
Definition begun_after_copy (mode : Z) : GL unit :=
  tf ← TransformFeedback.new;
  tf' ← TransformFeedback.copy tf;
  tf ← TransformFeedback.begin mode tf;
  TransformFeedback.destroy tf;;
  TransformFeedback.destroy tf'.

(** The same two owners as in [two_owners], destroyed in the other order. *)
Definition two_owners_reversed (mode : Z) : GL unit :=
  tf ← TransformFeedback.new_active mode;
  tf' ← TransformFeedback.copy tf;
  TransformFeedback.destroy tf;;
  TransformFeedback.destroy tf'.

(** ** [enums/data_type.h], [enums/index_type.h]: guarded enumerations

    Every enumerator stands under [#if OGLWRAP_DEFINE_EVERYTHING ||
    defined(GL_X)] and takes the value of the macro [GL_X].  The macros come
    from the OpenGL header the user includes, [OGLWRAP_DEFINE_EVERYTHING]
    from the configuration. *)

Module Enums.

(** What the enumerations see of the OpenGL header the user includes: the
    object-like macros with the integer their expansion evaluates to, the
    names the header declares otherwise (an enumerator, a constant) with
    their value, and the configuration macro. *)
Record Header : Type := mkHeader {
  macros : gmap string Z;
  declared : gmap string Z;
  OGLWRAP_DEFINE_EVERYTHING : option Z
}.

(** [defined(M)] *)
Definition defined (h : Header) (macro : string) : bool :=
  bool_decide (is_Some (macros h !! macro)).

(** [#if OGLWRAP_DEFINE_EVERYTHING || defined(M)] *)
Definition guard (h : Header) (macro : string) : bool :=
  pp_true (OGLWRAP_DEFINE_EVERYTHING h) || defined h macro.

(** What the name [M] stands for in an initialiser: a macro is replaced
    first; a name that is no macro is looked up among the declarations. *)
Definition lookup (h : Header) (name : string) : option Z :=
  match macros h !! name with
  | Some v => Some v
  | None => declared h !! name
  end.

(** The values an enumerator of underlying type [GLenum] can be
    initialised with: a constant that does not fit is a narrowing
    conversion. *)
Definition is_GLenum (v : Z) : bool := bool_decide (0 <= v < 2 ^ 32).

(** One guarded line [Name = M,]: no enumerator when the guard fails; when
    it holds the enumerator has the value [M] stands for, and the
    translation unit is ill-formed ([None]) if [M] stands for nothing or for
    a value that is no [GLenum]. *)
Definition enumerator (h : Header) (name macro : string)
  : option (list (string * Z)) :=
  if guard h macro then
    match lookup h macro with
    | Some v => if is_GLenum v then Some [(name, v)] else None
    | None => None
    end
  else Some [].

(** The enumerators of an [enum class], in the order of declaration. *)
Fixpoint enum (h : Header) (items : list (string * string))
  : option (list (string * Z)) :=
  match items with
  | [] => Some []
  | (name, macro) :: items =>
      e ← enumerator h name macro;
      es ← enum h items;
      Some (e ++ es)
  end.

Definition DataType_items : list (string * string) :=
  [("Byte", "GL_BYTE"); ("Short", "GL_SHORT"); ("Int", "GL_INT");
   ("Fixed", "GL_FIXED"); ("Float", "GL_FLOAT");
   ("HalfFloat", "GL_HALF_FLOAT"); ("Double", "GL_DOUBLE");
   ("UnsignedByte", "GL_UNSIGNED_BYTE");
   ("UnsignedShort", "GL_UNSIGNED_SHORT");
   ("UnsignedInt", "GL_UNSIGNED_INT")]%string.

Definition Texture2DType_items : list (string * string) :=
  [("Texture2D", "GL_TEXTURE_2D"); ("Texture1DArray", "GL_TEXTURE_1D_ARRAY");
   ("TextureRectangle", "GL_TEXTURE_RECTANGLE");
   ("TextureCubeMap", "GL_TEXTURE_CUBE_MAP")]%string.

Definition IndexType_items : list (string * string) :=
  [("UnsignedByte", "GL_UNSIGNED_BYTE");
   ("UnsignedShort", "GL_UNSIGNED_SHORT");
   ("UnsignedInt", "GL_UNSIGNED_INT")]%string.

(** [enum class DataType : GLenum] *)
Definition DataType (h : Header) : option (list (string * Z)) :=
  enum h DataType_items.

(** [enum class Texture2DType : GLenum] *)
Definition Texture2DType (h : Header) : option (list (string * Z)) :=
  enum h Texture2DType_items.

(** [enum class IndexType : GLenum] *)
Definition IndexType (h : Header) : option (list (string * Z)) :=
  enum h IndexType_items.

(** A header with the three unsigned types and [GL_FLOAT] only. *)
Definition small_header : Header :=
  mkHeader (list_to_map [("GL_UNSIGNED_BYTE", 5121); ("GL_UNSIGNED_SHORT", 5123);
                         ("GL_UNSIGNED_INT", 5125); ("GL_FLOAT", 5126)]%string)
    ∅ None.

(** A header that gives the three unsigned types as enumerators rather
    than macros, compiled with [-DOGLWRAP_DEFINE_EVERYTHING=1]. *)
Definition enum_header : Header :=
  mkHeader ∅
    (list_to_map [("GL_UNSIGNED_BYTE", 5121); ("GL_UNSIGNED_SHORT", 5123);
                  ("GL_UNSIGNED_INT", 5125)]%string)
    (Some 1).

(** A header whose [GL_UNSIGNED_BYTE] is [-1]. *)
Definition negative_header : Header :=
  mkHeader (list_to_map [("GL_UNSIGNED_BYTE", -1)]%string) ∅ None.

End Enums.

(** ** The stream insertion operators for glm vectors and matrices

    A stream is known by its identity; [std::cout] is one of them.  What
    has been inserted into a stream is kept as the list of the pieces, in
    the order of insertion. *)

Module Insertion.

Definition cout : nat := 0%nat.

Definition endl : string := String (Ascii.ascii_of_nat 10) EmptyString.

Definition separator : string := ", "%string.

Definition written (st : gmap nat (list string)) (os : nat) : list string :=
  default [] (st !! os).

(** [os << s] *)
Definition put (os : nat) (s : string) (st : gmap nat (list string))
  : gmap nat (list string) :=
  <[os := written st os ++ [s]]> st.

(** [os << s1 << s2 << ...] *)
Definition put_all (os : nat) (l : list string) (st : gmap nat (list string))
  : gmap nat (list string) :=
  fold_left (fun st s => put os s st) l st.

(** The pieces of a list with a separator between neighbours. *)
Fixpoint join (sep : string) (l : list string) : list string :=
  match l with
  | [] => []
  | [a] => [a]
  | a :: l => a :: sep :: join sep l
  end.

Section Insertion.

(** The element type and how a stream formats an element. *)
Context {T : Type} (show : T -> string).

Record tvec2 : Type := mkvec2 { tvec2_x : T; tvec2_y : T }.
Record tvec3 : Type := mkvec3 { tvec3_x : T; tvec3_y : T; tvec3_z : T }.
Record tvec4 : Type :=
  mkvec4 { tvec4_x : T; tvec4_y : T; tvec4_z : T; tvec4_w : T }.
Record tquat : Type :=
  mkquat { tquat_x : T; tquat_y : T; tquat_z : T; tquat_w : T }.

(** A square matrix, read as the code reads it: [mat j i] is [mat[j][i]]. *)
Definition tmat : Type := nat -> nat -> T.

(** [operator<<(std::ostream& os, const tvec2<T>& v)]; each operator
    returns [os]. *)
Definition insert_tvec2 (os : nat) (v : tvec2) (st : gmap nat (list string))
  : nat * gmap nat (list string) :=
  (os, put_all os [show (tvec2_x v); separator; show (tvec2_y v)] st).

(** [operator<<(std::ostream& os, const tvec3<T>& v)] *)
Definition insert_tvec3 (os : nat) (v : tvec3) (st : gmap nat (list string))
  : nat * gmap nat (list string) :=
  (os, put_all os [show (tvec3_x v); separator; show (tvec3_y v); separator;
                   show (tvec3_z v)] st).

(** [operator<<(std::ostream& os, const tvec4<T>& v)] *)
Definition insert_tvec4 (os : nat) (v : tvec4) (st : gmap nat (list string))
  : nat * gmap nat (list string) :=
  (os, put_all os [show (tvec4_x v); separator; show (tvec4_y v); separator;
                   show (tvec4_z v); separator; show (tvec4_w v)] st).

(** [operator<<(std::ostream& os, const tquat<T>& v)] *)
Definition insert_tquat (os : nat) (v : tquat) (st : gmap nat (list string))
  : nat * gmap nat (list string) :=
  (os, put_all os [show (tquat_x v); separator; show (tquat_y v); separator;
                   show (tquat_z v); separator; show (tquat_w v)] st).

(** The inner loop of the matrix operators, for the row [i]:
    [for (int j = 0; j < n; j++) { std::cout << mat[j][i];
     if (i != n-1 || j != n-1) std::cout << ", "; }] *)
Definition insert_row (n i : nat) (mat : tmat) (st : gmap nat (list string))
  : gmap nat (list string) :=
  fold_left
    (fun st j =>
       let st := put cout (show (mat j i)) st in
       if negb (i =? n - 1)%nat || negb (j =? n - 1)%nat
       then put cout separator st else st)
    (seq 0 n) st.

(** The body shared by the three matrix operators, [n] being 2, 3 or 4:
    [for (int i = 0; i < n; i++) { ...; std::cout << std::endl; }
     return os;] *)
Definition insert_tmat (n : nat) (os : nat) (mat : tmat)
  (st : gmap nat (list string)) : nat * gmap nat (list string) :=
  (os, fold_left (fun st i => put cout endl (insert_row n i mat st))
         (seq 0 n) st).

(** [operator<<(std::ostream& os, const tmat2x2<T>& mat)] and the
    operators for [tmat3x3] and [tmat4x4]. *)
Definition insert_tmat2x2 : nat -> tmat -> gmap nat (list string)
                            -> nat * gmap nat (list string) := insert_tmat 2.
Definition insert_tmat3x3 : nat -> tmat -> gmap nat (list string)
                            -> nat * gmap nat (list string) := insert_tmat 3.
Definition insert_tmat4x4 : nat -> tmat -> gmap nat (list string)
                            -> nat * gmap nat (list string) := insert_tmat 4.

(** The text of a matrix laid out by rows: row [i] holds [mat[0][i]] ...
    [mat[n-1][i]] with separators between them; every row but the last is
    followed by one more separator, and every row ends the line. *)
Definition row_text (n i : nat) (mat : tmat) : list string :=
  join separator (map (fun j => show (mat j i)) (seq 0 n)).

Definition matrix_text (n : nat) (mat : tmat) : list string :=
  flat_map
    (fun i => row_text n i mat
              ++ (if (i =? n - 1)%nat then [] else [separator])
              ++ [endl])
    (seq 0 n).

End Insertion.
End Insertion.

(** [st'] is [st] with the pieces [l] appended to the stream [os], every
    other stream being as it was. *)
Definition appended (st st' : gmap nat (list string)) (os : nat)
  (l : list string) : Prop :=
  Insertion.written st' os = Insertion.written st os ++ l
  /\ forall os' : nat, os' <> os -> st' !! os' = st !! os'.

(** The pieces the inner loop of a matrix operator writes for the column
    [j] of the row [i]. *)
Definition cell_pieces {T : Type} (show : T -> string) (n i : nat)
  (mat : nat -> nat -> T) (j : nat) : list string :=
  show (mat j i)
  :: if negb (i =? n - 1)%nat || negb (j =? n - 1)%nat
     then [Insertion.separator] else [].

(** * Part II: lemmas and theorems *)

(** ** Machine integers *)

Lemma pow2_double w : 0 < w -> 2 ^ w = 2 * 2 ^ (w - 1).
Proof.
  intros Hw. replace w with (Z.succ (w - 1)) at 1 by lia.
  apply Z.pow_succ_r. lia.
Qed.

Lemma wrap_unsigned_id w x : 0 <= x < 2 ^ w -> Int.wrap_unsigned w x = x.
Proof. intros H. unfold Int.wrap_unsigned. by apply Z.mod_small. Qed.

Lemma wrap_signed_id w x :
  0 < w -> - 2 ^ (w - 1) <= x < 2 ^ (w - 1) -> Int.wrap_signed w x = x.
Proof.
  intros Hw H. unfold Int.wrap_signed.
  pose proof (pow2_double w Hw) as E.
  rewrite Z.mod_small; lia.
Qed.

(** Reading an unsigned value through a signed variable of the same width
    and casting it back loses nothing. *)
Lemma unsigned_signed_unsigned w x :
  Int.wrap_unsigned w (Int.wrap_signed w x) = Int.wrap_unsigned w x.
Proof.
  unfold Int.wrap_unsigned, Int.wrap_signed.
  rewrite Zminus_mod_idemp_l. f_equal. lia.
Qed.

Lemma GLuint_of_GLint x : is_GLuint x -> to_GLuint (to_GLint x) = x.
Proof.
  intros H. unfold to_GLuint, to_GLint.
  rewrite unsigned_signed_unsigned. by apply wrap_unsigned_id.
Qed.

Lemma to_GLbitfield_range x : 0 <= to_GLbitfield x < 2 ^ 32.
Proof. unfold to_GLbitfield, Int.wrap_unsigned. apply Z.mod_pos_bound. lia. Qed.

(** Only the low 32 bits of a value survive the conversion. *)
Lemma to_GLbitfield_testbit x i :
  Z.testbit (to_GLbitfield x) i = (i <? 32) && Z.testbit x i.
Proof.
  unfold to_GLbitfield, Int.wrap_unsigned.
  destruct (Z.ltb_spec i 32) as [Hlt | Hge]; simpl.
  - destruct (Z.lt_ge_cases i 0) as [Hn | Hp].
    + by rewrite !Z.testbit_neg_r.
    + apply Z.mod_pow2_bits_low. lia.
  - apply Z.mod_pow2_bits_high. lia.
Qed.

Lemma GLbitfield_high_bits x i :
  0 <= x < 2 ^ 32 -> 32 <= i -> Z.testbit x i = false.
Proof.
  intros Hx Hi. destruct (Z.eq_dec x 0) as [->|Hnz]; [apply Z.bits_0|].
  apply Z.bits_above_log2; [lia|].
  apply Z.lt_le_trans with 32; [|done].
  apply Z.log2_lt_pow2; lia.
Qed.

Lemma to_GLbitfield_id x : 0 <= x < 2 ^ 32 -> to_GLbitfield x = x.
Proof. apply wrap_unsigned_id. Qed.

Lemma lor_GLbitfield_range x y :
  0 <= x < 2 ^ 32 -> 0 <= y < 2 ^ 32 -> 0 <= Z.lor x y < 2 ^ 32.
Proof.
  intros Hx Hy.
  assert (N : 0 <= Z.lor x y) by (apply Z.lor_nonneg; lia).
  split; [done|].
  destruct (Z.eq_dec (Z.lor x y) 0) as [->|Hnz]; [lia|].
  apply Z.log2_lt_pow2; [lia|].
  rewrite Z.log2_lor by lia.
  apply Z.max_lub_lt.
  - destruct (Z.eq_dec x 0) as [->|]; [simpl; lia|]. apply Z.log2_lt_pow2; lia.
  - destruct (Z.eq_dec y 0) as [->|]; [simpl; lia|]. apply Z.log2_lt_pow2; lia.
Qed.

(** [(x & y) == y] says that every bit of [y] is a bit of [x]. *)
Lemma land_eq_iff_bits x y :
  Z.land x y = y <-> (forall i, Z.testbit y i = true -> Z.testbit x i = true).
Proof.
  split.
  - intros E i Hy. rewrite <- E in Hy. rewrite Z.land_spec in Hy.
    by apply andb_true_iff in Hy as [? _].
  - intros H. apply Z.bits_inj'. intros i _. rewrite Z.land_spec.
    destruct (Z.testbit y i) eqn:Ey.
    + by rewrite (H i Ey).
    + by rewrite andb_false_r.
Qed.

(** ** [Bitfield] *)

Lemma to_GLbitfield_lor x y :
  to_GLbitfield (Z.lor x y) = Z.lor (to_GLbitfield x) (to_GLbitfield y).
Proof.
  apply Z.bits_inj'. intros i _.
  rewrite Z.lor_spec, !to_GLbitfield_testbit, Z.lor_spec.
  by destruct (i <? 32).
Qed.

Lemma to_GLbitfield_idemp x : to_GLbitfield (to_GLbitfield x) = to_GLbitfield x.
Proof. apply to_GLbitfield_id, to_GLbitfield_range. Qed.

Section BitfieldFacts.

Context {Bit : Type} (underlying : Bit -> Z) (wide : bool).

#[local] Abbreviation value := (Bitfield.GLbitfield_of underlying).
#[local] Abbreviation or_bit := (Bitfield.or_bit underlying).
#[local] Abbreviation test := (Bitfield.test underlying wide).

(** The value of a flag in the type of the comparison, written out. *)
#[local] Abbreviation promoted b :=
  (if wide then underlying b else to_GLbitfield (underlying b)).

Lemma Bitfield_ext (f g : Bitfield.t) :
  Bitfield.bits_ f = Bitfield.bits_ g -> f = g.
Proof. destruct f, g; simpl; congruence. Qed.

Lemma or_bit_bits (f : Bitfield.t) (b : Bit) :
  0 <= Bitfield.bits_ f < 2 ^ 32 ->
  Bitfield.bits_ (or_bit f b) = Z.lor (Bitfield.bits_ f) (value b).
Proof.
  intros Hf. unfold Bitfield.or_bit, Bitfield.of_bits; simpl.
  apply to_GLbitfield_id, lor_GLbitfield_range; [done|].
  apply to_GLbitfield_range.
Qed.

(** The loop of the initializer-list constructor and a chain of
    [operator|] accumulate the same bits. *)
Lemma fold_or_bit_bits (l : list Bit) (f : Bitfield.t) :
  0 <= Bitfield.bits_ f < 2 ^ 32 ->
  Bitfield.bits_ (fold_left or_bit l f)
  = fold_left (fun acc b => Z.lor acc (value b)) l (Bitfield.bits_ f).
Proof.
  revert f. induction l as [|b l IH]; intros f Hf; [done|].
  cbn [fold_left]. rewrite IH.
  - by rewrite or_bit_bits.
  - rewrite or_bit_bits by done.
    apply lor_GLbitfield_range; [done | apply to_GLbitfield_range].
Qed.

(** The loop keeps the low 32 bits of the bitwise-or of the flags' values. *)
Lemma fold_lor_values (l : list Bit) : forall acc,
  fold_left (fun acc b => Z.lor acc (value b)) l (to_GLbitfield acc)
  = to_GLbitfield (fold_left (fun acc b => Z.lor acc (underlying b)) l acc).
Proof.
  induction l as [|b l IH]; intros acc; [done|]. cbn [fold_left].
  rewrite <- IH. f_equal. unfold Bitfield.GLbitfield_of.
  by rewrite to_GLbitfield_lor.
Qed.

(** For a flag that fits, the comparison of [test] is one of [GLbitfield]
    values. *)
Lemma promoted_fits (b : Bit) :
  fits_GLbitfield underlying wide b -> Bitfield.in_common_type underlying wide b = value b.
Proof.
  unfold Bitfield.in_common_type, Bitfield.GLbitfield_of.
  intros [->|H]; [done|]. rewrite to_GLbitfield_id by done. by destruct wide.
Qed.

Lemma test_or_bit (f : Bitfield.t) (b : Bit) :
  fits_GLbitfield underlying wide b -> test (or_bit f b) b = true.
Proof.
  intros Hb. unfold Bitfield.test. rewrite (promoted_fits b Hb).
  unfold Bitfield.or_bit, Bitfield.of_bits; simpl.
  apply Z.eqb_eq, land_eq_iff_bits. intros i Hi.
  rewrite to_GLbitfield_testbit, Z.lor_spec, Hi, orb_true_r, andb_true_r.
  apply Z.ltb_lt. destruct (Z.lt_ge_cases i 32) as [|Hge]; [done|].
  rewrite (GLbitfield_high_bits (value b) i) in Hi; [done| |done].
  apply to_GLbitfield_range.
Qed.


End BitfieldFacts.



(** ** The configuration *)

(** Validation is on by default, off with [-DOGLWRAP_DEBUG=0], and an
    explicit [OGLWRAP_BINDCHECK] decides whatever [OGLWRAP_DEBUG] is. *)
Lemma bindcheck_cases :
  bindcheck default_config = true
  /\ bindcheck release_config = false
  /\ bindcheck (mkConfig (Some 0) (Some 1)) = true
  /\ bindcheck (mkConfig None (Some 0)) = false.
Proof. repeat split. Qed.

(** ** The driver and the monad *)

Lemma calls_effect c d : calls (effect c d) = calls d.
Proof. by destruct c. Qed.

Lemma calls_issue c d : calls (issue c d).2 = calls d ++ [c].
Proof. simpl. by rewrite calls_effect. Qed.

Lemma gl_run c w :
  gl c w = (inr (answer c (driver w)),
            mkWorld (record c (effect c (driver w))) (handles w)).
Proof. reflexivity. Qed.

Lemma calls_gl c w : calls (driver (gl c w).2) = calls (driver w) ++ [c].
Proof. simpl. by rewrite calls_effect. Qed.

Lemma handles_gl c w : handles (gl c w).2 = handles w.
Proof. reflexivity. Qed.

Lemma issued_app w w' l :
  calls (driver w') = calls (driver w) ++ l -> issued w w' = l.
Proof. intros E. unfold issued. rewrite E. apply drop_app_length. Qed.

Lemma issued_refl w : issued w w = [].
Proof. apply issued_app. by rewrite app_nil_r. Qed.

Lemma issued_gl c w : issued w (gl c w).2 = [c].
Proof. apply issued_app. simpl. by rewrite calls_effect. Qed.

#[local] Ltac run :=
  unfold mbind, mret, GL_bind, GL_ret, throw; rewrite ?gl_run; cbn beta iota.

(** ** [TransformFeedback]: the state machine *)

Lemma begin_run mode tf w :
  TransformFeedback.begin mode tf w
  = (inr (TransformFeedback.mk (TransformFeedback.handle tf)
            TransformFeedback.working),
     (gl (BeginTransformFeedback mode) w).2).
Proof. reflexivity. Qed.

Lemma pause_run tf w :
  TransformFeedback.pause tf w
  = (inr (TransformFeedback.mk (TransformFeedback.handle tf)
            TransformFeedback.paused),
     (gl PauseTransformFeedback w).2).
Proof. reflexivity. Qed.

Lemma resume_run tf w :
  TransformFeedback.resume tf w
  = (inr (TransformFeedback.mk (TransformFeedback.handle tf)
            TransformFeedback.working),
     (gl ResumeTransformFeedback w).2).
Proof. reflexivity. Qed.

Lemma end_run tf w :
  TransformFeedback.end_ tf w
  = (inr (TransformFeedback.mk (TransformFeedback.handle tf)
            TransformFeedback.none),
     (gl EndTransformFeedback w).2).
Proof. reflexivity. Qed.

(** C1, as the code has it.  [begin(mode)] has no guard: from every state,
    Active included, it returns without an error, leaves the object in the
    state [working] and issues [glBeginTransformFeedback(mode)] and nothing
    else. *)
Theorem begin_never_fails (mode : Z) (tf : TransformFeedback.t) (w : World) :
  exists w',
    TransformFeedback.begin mode tf w
    = (inr (TransformFeedback.mk (TransformFeedback.handle tf)
              TransformFeedback.working), w')
    /\ issued w w' = [BeginTransformFeedback mode]
    /\ handles w' = handles w.
Proof.
  eexists. split; [apply begin_run|]. split; [apply issued_gl | done].
Qed.

(** C6. From Idle, [begin] leads to Active, [pause] to Paused, [resume] back
    to Active and [end] to Idle; each step returns without an error, and
    the driver has received the four calls in this order. *)
Theorem lifecycle_succeeds (mode : Z) (tf : TransformFeedback.t) (w : World) :
  TransformFeedback.state tf = TransformFeedback.none ->
  exists tf1 w1 tf2 w2 tf3 w3 tf4 w4,
    TransformFeedback.begin mode tf w = (inr tf1, w1)
    /\ TransformFeedback.state tf1 = TransformFeedback.working
    /\ TransformFeedback.pause tf1 w1 = (inr tf2, w2)
    /\ TransformFeedback.state tf2 = TransformFeedback.paused
    /\ TransformFeedback.resume tf2 w2 = (inr tf3, w3)
    /\ TransformFeedback.state tf3 = TransformFeedback.working
    /\ TransformFeedback.end_ tf3 w3 = (inr tf4, w4)
    /\ TransformFeedback.state tf4 = TransformFeedback.none
    /\ issued w w4 = [BeginTransformFeedback mode; PauseTransformFeedback;
                      ResumeTransformFeedback; EndTransformFeedback].
Proof.
  intros _. do 8 eexists.
  rewrite begin_run. split; [reflexivity|]. split; [reflexivity|].
  rewrite pause_run. split; [reflexivity|]. split; [reflexivity|].
  rewrite resume_run. split; [reflexivity|]. split; [reflexivity|].
  rewrite end_run. split; [reflexivity|]. split; [reflexivity|].
  apply issued_app. simpl. rewrite ?calls_effect.
  by rewrite <- !app_assoc.
Qed.

(** ** Shared handles *)

Section HandleFacts.

Variable del : Z -> GLcall.

Lemma release_last h name w :
  handles w !! h = Some (mkHandle name 1) ->
  Handle.release del h w
  = (inr (), mkWorld (gl (del name) w).2.(driver)
               (<[h := mkHandle 0 0]> (handles w))).
Proof.
  intros E. unfold Handle.release, Handle.get_block. run. by rewrite E.
Qed.

Lemma release_shared h name n w :
  handles w !! h = Some (mkHandle name (S (S n))) ->
  Handle.release del h w
  = (inr (), mkWorld (driver w) (<[h := mkHandle name (S n)]> (handles w))).
Proof.
  intros E. unfold Handle.release, Handle.get_block. run. by rewrite E.
Qed.

Lemma release_released h name w :
  handles w !! h = Some (mkHandle name 0) ->
  Handle.release del h w = (inr (), w).
Proof.
  intros E. unfold Handle.release, Handle.get_block. run. by rewrite E.
Qed.

Lemma releases_released n h name w :
  handles w !! h = Some (mkHandle name 0) ->
  Handle.releases del n h w = (inr (), w).
Proof.
  intros E. induction n as [|n IH]; [done|].
  cbn [Handle.releases]. run. by rewrite (release_released h name w E).
Qed.

(** However many times a handle is released, its object is deleted when
    the count reaches zero and at no other time. *)
Lemma releases_run n : forall h name k w,
  handles w !! h = Some (mkHandle name k) -> (0 < k)%nat ->
  exists w',
    Handle.releases del n h w = (inr (), w')
    /\ calls (driver w')
       = calls (driver w) ++ (if (k <=? n)%nat then [del name] else [])
    /\ handles w' !! h
       = Some (if (k <=? n)%nat then mkHandle 0 0 else mkHandle name (k - n)).
Proof.
  induction n as [|n IH]; intros h name k w E Hk.
  - exists w. split; [done|].
    destruct (Nat.leb_spec k 0) as [|_]; [lia|].
    rewrite app_nil_r, Nat.sub_0_r. done.
  - destruct k as [|[|k]]; [lia| |].
    + eexists. cbn [Handle.releases]. run.
      rewrite (release_last h name w E).
      rewrite (releases_released n h 0);
        [|cbn [handles]; by rewrite lookup_insert_eq].
      split; [reflexivity|]. cbn [driver handles Nat.leb].
      split; [by rewrite calls_gl | by rewrite lookup_insert_eq].
    + cbn [Handle.releases]. run. rewrite (release_shared h name k w E).
      destruct (IH h name (S k)
                  (mkWorld (driver w) (<[h := mkHandle name (S k)]> (handles w))))
        as (w' & R & C & B); [cbn [handles]; by rewrite lookup_insert_eq | lia |].
      exists w'. rewrite R. split; [done|].
      change (S (S k) <=? S n)%nat with (S k <=? n)%nat.
      change (S (S k) - S n)%nat with (S k - n)%nat.
      done.
Qed.

End HandleFacts.

(** ** [TransformFeedback]: destruction *)

#[local] Abbreviation tf_handle := TransformFeedback.handle.
#[local] Abbreviation tf_state := TransformFeedback.state.

Lemma isDeletable_run h w :
  Handle.isDeletable h w
  = (inr (match handles w !! h with
          | Some b => Nat.eqb (refcount b) 1
          | None => false
          end), w).
Proof. reflexivity. Qed.

Lemma tf_bind_run tf w :
  TransformFeedback.bind tf w
  = (inr (), (gl (BindTransformFeedback GL_TRANSFORM_FEEDBACK
                    (default 0 (id <$> handles w !! tf_handle tf))) w).2).
Proof. reflexivity. Qed.

(** A destructor that finds its handle shared does nothing but give up its
    share. *)
Lemma destroy_shared tf name n w :
  handles w !! tf_handle tf = Some (mkHandle name (S (S n))) ->
  TransformFeedback.destroy tf w
  = (inr (), mkWorld (driver w)
               (<[tf_handle tf := mkHandle name (S n)]> (handles w))).
Proof.
  intros E. unfold TransformFeedback.destroy, TransformFeedback.destructor_body.
  run. rewrite isDeletable_run, E. cbn.
  unfold TransformFeedback.handle_release.
  by rewrite (release_shared _ _ name n w E).
Qed.

(** The last owner of an object that is not Idle binds it, ends the session
    and then deletes it. *)
Lemma destroy_last_active tf name w :
  handles w !! tf_handle tf = Some (mkHandle name 1) ->
  tf_state tf <> TransformFeedback.none ->
  exists w',
    TransformFeedback.destroy tf w = (inr (), w')
    /\ calls (driver w')
       = calls (driver w)
         ++ [BindTransformFeedback GL_TRANSFORM_FEEDBACK name;
             EndTransformFeedback; DeleteTransformFeedbacks name]
    /\ handles w' !! tf_handle tf = Some (mkHandle 0 0).
Proof.
  intros E Hs. unfold TransformFeedback.destroy, TransformFeedback.destructor_body.
  run. rewrite isDeletable_run, E. cbn [refcount Nat.eqb negb].
  assert (S : TransformFeedback.TFBstate_eqb (tf_state tf)
                TransformFeedback.none = false)
    by (by destruct (tf_state tf)).
  rewrite S. cbn [negb]. rewrite tf_bind_run, E, end_run. cbn [snd fmap option_fmap option_map default id].
  unfold TransformFeedback.handle_release.
  erewrite release_last; [|cbn [handles]; exact E].
  eexists. split; [reflexivity|]. cbn.
  split; [by rewrite <- !app_assoc | by rewrite lookup_insert_eq].
Qed.

(** From Idle the destructor is the release of the handle. *)
Lemma destroy_idle tf w :
  tf_state tf = TransformFeedback.none ->
  TransformFeedback.destroy tf w
  = TransformFeedback.handle_release (tf_handle tf) w.
Proof.
  intros E. unfold TransformFeedback.destroy, TransformFeedback.destructor_body.
  run. rewrite isDeletable_run, E.
  by destruct (handles w !! tf_handle tf) as [[? [|[|?]]]|].
Qed.

(** A handle is created with one owner and a name that is not zero, in a
    block of its own. *)
Lemma create_run gen w :
  let h := fresh (dom (handles w)) in
  Handle.create gen w
  = (inr h, mkWorld (gl gen w).2.(driver)
              (<[h := mkHandle (answer gen (driver w)) 1]> (handles w)))
  /\ handles w !! h = None.
Proof.
  split; [reflexivity|]. apply not_elem_of_dom, is_fresh.
Qed.

Lemma new_name_nonzero w tf w' :
  TransformFeedback.new w = (inr tf, w') ->
  exists name, handles w' !! tf_handle tf = Some (mkHandle name 1) /\ 0 < name.
Proof.
  unfold TransformFeedback.new, TransformFeedback.handle_create. run.
  destruct (create_run GenTransformFeedbacks w) as [-> _].
  intros [= <- <-]. eexists. cbn [handles tf_handle TransformFeedback.handle].
  rewrite lookup_insert_eq. split; [reflexivity|]. simpl. lia.
Qed.

(** A whole life: the copy is destroyed without a call, the last owner ends
    the session and deletes the object. *)
Lemma two_owners_calls :
  (two_owners world0).1 = inr ()
  /\ issued world0 (two_owners world0).2
     = [GenTransformFeedbacks;
        BindTransformFeedback GL_TRANSFORM_FEEDBACK 1;
        BeginTransformFeedback 4;
        BindTransformFeedback GL_TRANSFORM_FEEDBACK 1;
        EndTransformFeedback;
        DeleteTransformFeedbacks 1].
Proof. split; vm_compute; reflexivity. Qed.

(** What releasing a transform feedback handle does to the driver: at most
    the deletion call, and no binding moves. *)
Lemma tf_release_frame h w :
  let w' := (TransformFeedback.handle_release h w).2 in
  same_bindings (driver w) (driver w')
  /\ (issued w w' = []
      \/ exists name, issued w w' = [DeleteTransformFeedbacks name]).
Proof.
  unfold TransformFeedback.handle_release.
  destruct (handles w !! h) as [[name [|[|n]]]|] eqn:E.
  - rewrite (release_released _ h name w E). simpl.
    split; [done|]. left. apply issued_refl.
  - rewrite (release_last _ h name w E). simpl.
    split; [done|]. right. exists name.
    apply issued_app. done.
  - rewrite (release_shared _ h name n w E). simpl.
    split; [done|]. left. apply issued_app. simpl. by rewrite app_nil_r.
  - unfold Handle.release, Handle.get_block. run. rewrite E. simpl.
    split; [done|]. left. apply issued_refl.
Qed.

(** C2, as the code has it.  When a TransformFeedback that is the last
    owner of its handle is destroyed in a state other than Idle, the
    destructor binds the object, then ends the session, and only then is
    the handle released: the driver receives the bind call, one end call
    and after it the delete call, and nothing else. *)
Theorem destroy_active_ends_then_deletes
  (tf : TransformFeedback.t) (name : Z) (w : World) :
  handles w !! tf_handle tf = Some (mkHandle name 1) ->
  tf_state tf <> TransformFeedback.none ->
  exists w',
    TransformFeedback.destroy tf w = (inr (), w')
    /\ issued w w' = [BindTransformFeedback GL_TRANSFORM_FEEDBACK name;
                      EndTransformFeedback; DeleteTransformFeedbacks name]
    /\ handles w' !! tf_handle tf = Some (mkHandle 0 0).
Proof.
  intros E Hs.
  destruct (destroy_last_active tf name w E Hs) as (w' & R & C & B).
  exists w'. split; [done|]. split; [by apply issued_app | done].
Qed.

Lemma destroy_active_ends_then_deletes_witness :
  exists w',
    TransformFeedback.destroy tf_active (world_tf 1) = (inr (), w')
    /\ issued (world_tf 1) w'
       = [BindTransformFeedback GL_TRANSFORM_FEEDBACK 1;
          EndTransformFeedback; DeleteTransformFeedbacks 1]
    /\ handles w' !! tf_handle tf_active = Some (mkHandle 0 0).
Proof.
  apply (destroy_active_ends_then_deletes tf_active 1 (world_tf 1)).
  - reflexivity.
  - discriminate.
Defined.

(** C2 as stated fails: an Active TransformFeedback whose handle has a
    second owner is destroyed without any bind or end call. *)
Lemma destroy_shared_active_no_end :
  tf_state tf_active <> TransformFeedback.none
  /\ issued (world_tf 2) (TransformFeedback.destroy tf_active (world_tf 2)).2
     = [].
Proof. split; [discriminate | reflexivity]. Qed.

(** C9. Destroying a TransformFeedback that is Idle is releasing its handle
    and nothing more: no bind and no end call is issued (the only call
    there can be is the deletion of the release), and the bindings of the
    driver stay as they are. *)
Theorem destroy_idle_only_releases (tf : TransformFeedback.t) (w : World) :
  tf_state tf = TransformFeedback.none ->
  let w' := (TransformFeedback.destroy tf w).2 in
  TransformFeedback.destroy tf w
  = TransformFeedback.handle_release (tf_handle tf) w
  /\ (forall c, c ∈ issued w w' -> exists name, c = DeleteTransformFeedbacks name)
  /\ same_bindings (driver w) (driver w').
Proof.
  intros E w'. subst w'. rewrite (destroy_idle tf w E).
  destruct (tf_release_frame (tf_handle tf) w) as [F [I | [name I]]].
  - split; [done|]. split; [|done]. intros c Hc. rewrite I in Hc.
    by apply not_elem_of_nil in Hc.
  - split; [done|]. split; [|done]. intros c Hc. rewrite I in Hc.
    apply list_elem_of_singleton in Hc. eauto.
Qed.

Lemma destroy_idle_only_releases_witness :
  let w' := (TransformFeedback.destroy tf_idle (world_tf 1)).2 in
  TransformFeedback.destroy tf_idle (world_tf 1)
  = TransformFeedback.handle_release (tf_handle tf_idle) (world_tf 1)
  /\ (forall c, c ∈ issued (world_tf 1) w'
                -> exists name, c = DeleteTransformFeedbacks name)
  /\ same_bindings (driver (world_tf 1)) (driver w').
Proof. apply (destroy_idle_only_releases tf_idle (world_tf 1)). reflexivity. Defined.

(** C7. A handle with [k] owners that is released [n] times in a row: the
    deletion call is issued once, by the release that brings the count to
    zero ([n >= k]), and not at all before; at zero the id is marked
    unallocated and every further release changes nothing, so the object is
    never deleted twice.  The destructor of a TransformFeedback that is not
    the last owner issues no call at all, whatever its state: it only gives
    up its share. *)
Theorem handle_deleted_once
  (del : Z -> GLcall) (h : nat) (name : Z) (k n : nat) (w : World) :
  handles w !! h = Some (mkHandle name k) -> (0 < k)%nat ->
  exists w',
    Handle.releases del n h w = (inr (), w')
    /\ issued w w' = (if (k <=? n)%nat then [del name] else [])
    /\ ((k <= n)%nat ->
        handles w' !! h = Some (mkHandle 0 0)
        /\ Handle.release del h w' = (inr (), w'))
    /\ (forall tf, tf_handle tf = h -> (1 < k)%nat ->
        exists w'',
          TransformFeedback.destroy tf w = (inr (), w'')
          /\ issued w w'' = []
          /\ handles w'' !! h = Some (mkHandle name (k - 1))).
Proof.
  intros E Hk.
  destruct (releases_run del n h name k w E Hk) as (w' & R & C & B).
  exists w'. split; [done|]. split; [by apply issued_app|]. split.
  - intros Hle. destruct (Nat.leb_spec k n) as [_|]; [|lia].
    split; [done|]. by apply (release_released del h 0).
  - intros tf <- Hk1. destruct k as [|[|k]]; [lia | lia |].
    rewrite (destroy_shared tf name k w E). eexists. split; [reflexivity|].
    split.
    + apply issued_app. simpl. by rewrite app_nil_r.
    + simpl. by rewrite lookup_insert_eq.
Qed.

Lemma handle_deleted_once_witness :
  exists w',
    Handle.releases DeleteTransformFeedbacks 3 0 (world_tf 2) = (inr (), w')
    /\ issued (world_tf 2) w' = [DeleteTransformFeedbacks 1]
    /\ ((2 <= 3)%nat ->
        handles w' !! 0%nat = Some (mkHandle 0 0)
        /\ Handle.release DeleteTransformFeedbacks 0 w' = (inr (), w'))
    /\ (forall tf, tf_handle tf = 0%nat -> (1 < 2)%nat ->
        exists w'',
          TransformFeedback.destroy tf (world_tf 2) = (inr (), w'')
          /\ issued (world_tf 2) w'' = []
          /\ handles w'' !! 0%nat = Some (mkHandle 1 (2 - 1))).
Proof.
  apply (handle_deleted_once DeleteTransformFeedbacks 0 1 2 3 (world_tf 2)).
  - reflexivity.
  - lia.
Defined.

(** C1 as stated fails: [begin] on an Active object returns normally. *)
Lemma begin_while_active_succeeds :
  tf_state tf_active = TransformFeedback.working
  /\ (TransformFeedback.begin 4 tf_active (world_tf 1)).1 = inr tf_active
  /\ (TransformFeedback.begin 4 tf_active (world_tf 1)).1 <> inl StateError.
Proof. split; [reflexivity|]. split; [reflexivity | discriminate]. Qed.

Lemma lifecycle_succeeds_witness :
  exists tf1 w1 tf2 w2 tf3 w3 tf4 w4,
    TransformFeedback.begin 4 tf_idle (world_tf 1) = (inr tf1, w1)
    /\ TransformFeedback.state tf1 = TransformFeedback.working
    /\ TransformFeedback.pause tf1 w1 = (inr tf2, w2)
    /\ TransformFeedback.state tf2 = TransformFeedback.paused
    /\ TransformFeedback.resume tf2 w2 = (inr tf3, w3)
    /\ TransformFeedback.state tf3 = TransformFeedback.working
    /\ TransformFeedback.end_ tf3 w3 = (inr tf4, w4)
    /\ TransformFeedback.state tf4 = TransformFeedback.none
    /\ issued (world_tf 1) w4
       = [BeginTransformFeedback 4; PauseTransformFeedback;
          ResumeTransformFeedback; EndTransformFeedback].
Proof. apply (lifecycle_succeeds 4 tf_idle (world_tf 1)). reflexivity. Defined.

(** ** [BufferObject]: binding *)

#[local] Abbreviation buffer_ := BufferObject.buffer_.

(** Whether the driver reports the buffer of [b] as the one bound to [T],
    as [isBound] computes it. *)
Lemma isBound_run T b w :
  BufferObject.isBound T b w
  = (inr (buffer_ b =? to_GLuint (to_GLint (bound_buffer (driver w) T))),
     (gl (GetIntegerv (BUFFER_BINDING T)) w).2).
Proof. reflexivity. Qed.

Lemma bind_run T b w :
  BufferObject.bind T b w = (inr (), (gl (BindBuffer T (buffer_ b)) w).2).
Proof. reflexivity. Qed.

Lemma Unbind_run T w :
  BufferObject.Unbind T w = (inr (), (gl (BindBuffer T 0) w).2).
Proof. reflexivity. Qed.

Lemma bound_after_bind T x w :
  bound_buffer (driver (gl (BindBuffer T x) w).2) T = x.
Proof. unfold bound_buffer. simpl. by rewrite lookup_insert_eq. Qed.

Lemma bound_after_query T p w :
  bound_buffer (driver (gl (GetIntegerv p) w).2) T = bound_buffer (driver w) T.
Proof. reflexivity. Qed.

(** After [bind], [isBound] holds of a buffer exactly when it has the name
    that was bound. *)
Lemma isBound_after_bind T b x w :
  is_GLuint x ->
  (BufferObject.isBound T b (gl (BindBuffer T x) w).2).1
  = inr (buffer_ b =? x).
Proof.
  intros Hx. rewrite isBound_run. cbn [fst].
  by rewrite bound_after_bind, GLuint_of_GLint.
Qed.

(** C3. For every target [T] and every two buffers [A] and [B] of distinct
    names, after [A.bind()] and then [B.bind()], [A.isBound()] returns false
    and [B.isBound()] returns true. *)
Theorem bind_second_replaces_first (T : Z) (A B : BufferObject.t) (w : World) :
  is_GLuint (buffer_ A) -> is_GLuint (buffer_ B) -> buffer_ A <> buffer_ B ->
  ((BufferObject.bind T A;; BufferObject.bind T B;;
    a ← BufferObject.isBound T A;
    b ← BufferObject.isBound T B;
    mret (a, b)) w).1 = inr (false, true).
Proof.
  intros HA HB Hne. run. rewrite !bind_run. cbn [snd].
  rewrite !isBound_run. cbn [fst snd].
  rewrite bound_after_query, !bound_after_bind, GLuint_of_GLint by done.
  rewrite Z.eqb_refl. by apply Z.eqb_neq in Hne as ->.
Qed.

Lemma bind_second_replaces_first_witness :
  ((BufferObject.bind BufferType.Array (BufferObject.mk 1);;
    BufferObject.bind BufferType.Array (BufferObject.mk 2);;
    a ← BufferObject.isBound BufferType.Array (BufferObject.mk 1);
    b ← BufferObject.isBound BufferType.Array (BufferObject.mk 2);
    mret (a, b)) world0).1 = inr (false, true).
Proof.
  apply (bind_second_replaces_first BufferType.Array
           (BufferObject.mk 1) (BufferObject.mk 2) world0).
  - unfold is_GLuint. simpl. lia.
  - unfold is_GLuint. simpl. lia.
  - simpl. lia.
Defined.

Lemma CHECK_BINDING_off cfg m :
  bindcheck cfg = false -> CHECK_BINDING cfg m = mret ().
Proof. intros E. unfold CHECK_BINDING. by rewrite E. Qed.

Lemma CHECK_BINDING_on cfg m w :
  bindcheck cfg = true ->
  CHECK_BINDING cfg m w
  = match m w with
    | (inr true, w') => (inr (), w')
    | (inr false, w') => (inl BindingError, w')
    | (inl e, w') => (inl e, w')
    end.
Proof.
  intros E. unfold CHECK_BINDING. rewrite E. run.
  by destruct (m w) as [[e|[|]] w'].
Qed.

Lemma unbind_run_off cfg T r w :
  bindcheck cfg = false ->
  BufferObject.unbind cfg T r w = (inr (), (gl (BindBuffer T 0) w).2).
Proof.
  intros E. unfold BufferObject.unbind, CHECK_BINDING2.
  by rewrite (CHECK_BINDING_off cfg _ E).
Qed.

Lemma unbind_run_on cfg T r w :
  bindcheck cfg = true ->
  BufferObject.unbind cfg T r w
  = let w1 := (gl (GetIntegerv (BUFFER_BINDING T)) w).2 in
    if buffer_ r =? to_GLuint (to_GLint (bound_buffer (driver w) T))
    then (inr (), (gl (BindBuffer T 0) w1).2)
    else (inl BindingError, w1).
Proof.
  intros E. unfold BufferObject.unbind, CHECK_BINDING2. run.
  rewrite (CHECK_BINDING_on cfg _ w E), isBound_run.
  by destruct (buffer_ r =? _).
Qed.

(** Whatever [unbind] does, the buffer is not current afterwards. *)
Lemma not_bound_after_unbind cfg T r w :
  is_name (buffer_ r) ->
  (BufferObject.isBound T r (BufferObject.unbind cfg T r w).2).1 = inr false.
Proof.
  intros [Hpos Hlt].
  assert (U : forall w0,
             (BufferObject.isBound T r (gl (BindBuffer T 0) w0).2).1
             = inr false).
  { intros w0. rewrite isBound_after_bind by (unfold is_GLuint; lia).
    f_equal. apply Z.eqb_neq. lia. }
  destruct (bindcheck cfg) eqn:E.
  - rewrite (unbind_run_on cfg T r w E). cbn zeta.
    destruct (buffer_ r =? _) eqn:C; cbn [snd]; [apply U|].
    rewrite isBound_run. cbn [fst]. by rewrite bound_after_query, C.
  - rewrite (unbind_run_off cfg T r w E). apply U.
Qed.

(** C4. For every buffer [r] (its name one that [glGenBuffers] hands out),
    [r.bind()] followed by [r.isBound()] returns true, [r.isBound()] after
    [r.unbind()] returns false, and so does the whole sequence [r.bind()],
    [r.unbind()], [r.isBound()], in which [unbind] passes its check. *)
Theorem bind_then_current_unbind_then_not
  (cfg : Config) (T : Z) (r : BufferObject.t) (w : World) :
  is_name (buffer_ r) ->
  ((BufferObject.bind T r;; BufferObject.isBound T r) w).1 = inr true
  /\ (BufferObject.isBound T r (BufferObject.unbind cfg T r w).2).1
     = inr false
  /\ ((BufferObject.bind T r;; BufferObject.unbind cfg T r;;
       BufferObject.isBound T r) w).1 = inr false.
Proof.
  intros Hr. assert (Hu : is_GLuint (buffer_ r))
    by (destruct Hr; unfold is_GLuint; lia).
  split; [|split].
  - run. rewrite bind_run. cbn [snd].
    rewrite isBound_after_bind by done. by rewrite Z.eqb_refl.
  - by apply not_bound_after_unbind.
  - run. rewrite bind_run. cbn [snd].
    set (w1 := (gl (BindBuffer T (buffer_ r)) w).2).
    pose proof (not_bound_after_unbind cfg T r w1 Hr) as N.
    assert (S : (BufferObject.unbind cfg T r w1).1 = inr ()).
    { destruct (bindcheck cfg) eqn:E.
      - rewrite (unbind_run_on cfg T r w1 E). cbn zeta. subst w1.
        rewrite bound_after_bind, GLuint_of_GLint by done.
        by rewrite Z.eqb_refl.
      - by rewrite (unbind_run_off cfg T r w1 E). }
    destruct (BufferObject.unbind cfg T r w1) as [[e|[]] w2]; [done|].
    exact N.
Qed.

Lemma bind_then_current_unbind_then_not_witness :
  ((BufferObject.bind BufferType.Array (BufferObject.mk 1);;
    BufferObject.isBound BufferType.Array (BufferObject.mk 1)) world_bound).1
  = inr true
  /\ (BufferObject.isBound BufferType.Array (BufferObject.mk 1)
       (BufferObject.unbind default_config BufferType.Array
          (BufferObject.mk 1) world_bound).2).1
     = inr false
  /\ ((BufferObject.bind BufferType.Array (BufferObject.mk 1);;
       BufferObject.unbind default_config BufferType.Array (BufferObject.mk 1);;
       BufferObject.isBound BufferType.Array (BufferObject.mk 1)) world_bound).1
     = inr false.
Proof.
  apply (bind_then_current_unbind_then_not default_config BufferType.Array
           (BufferObject.mk 1) world_bound).
  unfold is_name. simpl. lia.
Defined.

(** ** [BufferObject]: uploads and mappings *)

Section Uploads.

Variables (cfg : Config) (T : Z) (CFD CFDE : GLpname -> GL unit).

#[local] Abbreviation query := (GetIntegerv (BUFFER_BINDING T)).

(** What is left of the check of an upload once [CHECK_BINDING] has
    passed or is compiled out. *)
#[local] Abbreviation vertex_array_check :=
  (if T =? BufferType.Array then CFDE GL_VERTEX_ARRAY_BINDING else mret ()).

Lemma isBound_current b w :
  (BufferObject.isBound T b w).1
  = inr (buffer_ b =? currentlyBoundBuffer T w).
Proof. reflexivity. Qed.

(** With validation on, the check of an upload stops at the binding query
    when the buffer is not the current one. *)
Lemma check_upload_fails b w :
  bindcheck cfg = true -> buffer_ b <> currentlyBoundBuffer T w ->
  BufferObject.check_upload cfg T CFDE b w
  = (inl BindingError, (gl query w).2).
Proof.
  intros E N. unfold BufferObject.check_upload. run.
  rewrite (CHECK_BINDING_on cfg _ w E), isBound_run.
  apply Z.eqb_neq in N. unfold currentlyBoundBuffer in N. simpl in N.
  by rewrite N.
Qed.

(** With validation on and the buffer current, the query is made and the
    vertex array check follows. *)
Lemma check_upload_passes b w :
  bindcheck cfg = true -> buffer_ b = currentlyBoundBuffer T w ->
  BufferObject.check_upload cfg T CFDE b w
  = vertex_array_check (gl query w).2.
Proof.
  intros E C. unfold BufferObject.check_upload. run.
  rewrite (CHECK_BINDING_on cfg _ w E), isBound_run.
  unfold currentlyBoundBuffer in C. cbn in C. by rewrite <- C, Z.eqb_refl.
Qed.

(** With validation off [CHECK_BINDING] is gone. *)
Lemma check_upload_off b w :
  bindcheck cfg = false ->
  BufferObject.check_upload cfg T CFDE b w = vertex_array_check w.
Proof.
  intros E. unfold BufferObject.check_upload.
  by rewrite (CHECK_BINDING_off cfg _ E).
Qed.

Lemma checked_fails {A} b (m : GL A) w :
  bindcheck cfg = true -> buffer_ b <> currentlyBoundBuffer T w ->
  (BufferObject.check_upload cfg T CFDE b;; m) w
  = (inl BindingError, (gl query w).2).
Proof. intros E N. run. by rewrite (check_upload_fails b w E N). Qed.

Lemma unchecked_runs {A} b (m : GL A) w :
  bindcheck cfg = false ->
  (BufferObject.check_upload cfg T CFDE b;; m) w
  = (vertex_array_check;; m) w.
Proof. intros E. run. by rewrite (check_upload_off b w E). Qed.

Lemma no_vertex_array_check {A} (m : GL A) w :
  T <> BufferType.Array -> (vertex_array_check;; m) w = m w.
Proof. intros N. apply Z.eqb_neq in N. by rewrite N. Qed.

Lemma Map_run_fail access e w w1 :
  CFD (getBindingTarget T) w = (inl e, w1) ->
  BufferObject.Map T CFD access w = (inl e, w1).
Proof. intros E. unfold BufferObject.Map. run. by rewrite E. Qed.

Lemma Map_range_run_fail offset length access e w w1 :
  CFD (getBindingTarget T) w = (inl e, w1) ->
  BufferObject.Map_range T CFD offset length access w = (inl e, w1).
Proof. intros E. unfold BufferObject.Map_range. run. by rewrite E. Qed.

Lemma Map_run_pass access w w1 :
  CFD (getBindingTarget T) w = (inr (), w1) ->
  BufferObject.Map T CFD access w
  = (inr (BufferObject.mkMap
            (answer (MapBuffer T access) (driver w1))
            (to_size_t
               (to_GLint (default 0 (buffer_size (driver w1)
                                       !! bound_buffer (driver w1) T))))),
     (gl (GetBufferParameteriv T GL_BUFFER_SIZE)
        (gl (MapBuffer T access) w1).2).2).
Proof.
  intros E. unfold BufferObject.Map, BufferObject.Size. run. by rewrite E.
Qed.

Lemma Map_range_run_pass offset length access w w1 :
  CFD (getBindingTarget T) w = (inr (), w1) ->
  BufferObject.Map_range T CFD offset length access w
  = (inr (BufferObject.mkMap
            (answer (MapBufferRange T (to_GLintptr offset)
                       (to_GLsizeiptr length) (Bitfield.to_bits access))
               (driver w1))
            (to_size_t
               (to_GLint (default 0 (buffer_size (driver w1)
                                       !! bound_buffer (driver w1) T))))),
     (gl (GetBufferParameteriv T GL_BUFFER_SIZE)
        (gl (MapBufferRange T (to_GLintptr offset) (to_GLsizeiptr length)
               (Bitfield.to_bits access)) w1).2).2).
Proof.
  intros E. unfold BufferObject.Map_range, BufferObject.Size. run.
  by rewrite E.
Qed.

Lemma Data_run size p usage w :
  BufferObject.Data T size p usage w
  = (inr (), (gl (BufferData T (to_GLsizeiptr (to_GLsizei size)) p usage) w).2).
Proof. reflexivity. Qed.

Lemma SubData_run offset size p w :
  BufferObject.SubData T offset size p w
  = (inr (), (gl (BufferSubData T (to_GLintptr offset)
                    (to_GLsizeiptr (to_GLsizei size)) p) w).2).
Proof. reflexivity. Qed.

Lemma Data_vector_run sizeof v usage w :
  BufferObject.Data_vector T sizeof v usage w
  = (inr (), (gl (BufferData T
                    (to_GLsizeiptr (to_size_t (v_size v * sizeof)))
                    (v_data v) usage) w).2).
Proof. reflexivity. Qed.

Lemma SubData_vector_run sizeof offset v w :
  BufferObject.SubData_vector T sizeof offset v w
  = (inr (), (gl (BufferSubData T (to_GLintptr offset)
                    (to_GLsizeiptr (to_size_t (v_size v * sizeof)))
                    (v_data v)) w).2).
Proof. reflexivity. Qed.

End Uploads.

(** C5, as the code has it.  [CFD] and [CFDE] stand for the expansions of
    [CHECK_FOR_DEFAULT_BINDING] and [CHECK_FOR_DEFAULT_BINDING_EXPLICIT],
    whatever they are.  For a buffer [b] that is not the one currently
    bound to its target:

    - with validation enabled, [data] and [subData] (pointer and vector
      overloads) fail with a BindingError, and the one driver call made is
      the binding query of the check, so that no [glBufferData] or
      [glBufferSubData] is issued;
    - with validation disabled, [CHECK_BINDING] is gone and [data] and
      [subData] are their unchecked counterparts, preceded for the target
      [BufferType::Array] by [CFDE] on [GL_VERTEX_ARRAY_BINDING]; for every
      other target they go to the driver with no query and no error;
    - the map constructors take no buffer object: they run [CFD] on the
      binding name of the target, fail exactly as it fails, and otherwise
      map the buffer that is bound and ask for its size. *)
Theorem upload_requires_current
  (cfg : Config) (T : Z) (CFD CFDE : GLpname -> GL unit)
  (b : BufferObject.t) (w : World)
  (size p usage offset sizeof : Z) (v : std_vector)
  (access length : Z) (flags : Bitfield.t) :
  buffer_ b <> currentlyBoundBuffer T w ->
  (if bindcheck cfg then
     let w1 := (gl (GetIntegerv (BUFFER_BINDING T)) w).2 in
     BufferObject.data cfg T CFDE b size p usage w = (inl BindingError, w1)
     /\ BufferObject.data_vector cfg T CFDE b sizeof v usage w
        = (inl BindingError, w1)
     /\ BufferObject.subData cfg T CFDE b offset size p w
        = (inl BindingError, w1)
     /\ BufferObject.subData_vector cfg T CFDE b sizeof offset v w
        = (inl BindingError, w1)
     /\ issued w w1 = [GetIntegerv (BUFFER_BINDING T)]
   else
     let vertex_array_check : GL unit :=
       if T =? BufferType.Array then CFDE GL_VERTEX_ARRAY_BINDING
       else mret () in
     BufferObject.data cfg T CFDE b size p usage w
     = (vertex_array_check;; BufferObject.Data T size p usage) w
     /\ BufferObject.data_vector cfg T CFDE b sizeof v usage w
        = (vertex_array_check;; BufferObject.Data_vector T sizeof v usage) w
     /\ BufferObject.subData cfg T CFDE b offset size p w
        = (vertex_array_check;; BufferObject.SubData T offset size p) w
     /\ BufferObject.subData_vector cfg T CFDE b sizeof offset v w
        = (vertex_array_check;;
           BufferObject.SubData_vector T sizeof offset v) w
     /\ (T <> BufferType.Array ->
         (exists w',
            BufferObject.data cfg T CFDE b size p usage w = (inr (), w')
            /\ issued w w'
               = [BufferData T (to_GLsizeiptr (to_GLsizei size)) p usage])
         /\ (exists w',
               BufferObject.subData cfg T CFDE b offset size p w = (inr (), w')
               /\ issued w w'
                  = [BufferSubData T (to_GLintptr offset)
                       (to_GLsizeiptr (to_GLsizei size)) p])))
  /\ (forall e w1,
        CFD (getBindingTarget T) w = (inl e, w1) ->
        BufferObject.Map T CFD access w = (inl e, w1)
        /\ BufferObject.Map_range T CFD offset length flags w = (inl e, w1))
  /\ (forall w1,
        CFD (getBindingTarget T) w = (inr (), w1) ->
        (exists m w',
           BufferObject.Map T CFD access w = (inr m, w')
           /\ issued w1 w' = [MapBuffer T access;
                              GetBufferParameteriv T GL_BUFFER_SIZE])
        /\ (exists m w',
              BufferObject.Map_range T CFD offset length flags w = (inr m, w')
              /\ issued w1 w'
                 = [MapBufferRange T (to_GLintptr offset)
                      (to_GLsizeiptr length) (Bitfield.to_bits flags);
                    GetBufferParameteriv T GL_BUFFER_SIZE])).
Proof.
  intros N. split; [|split].
  - destruct (bindcheck cfg) eqn:E.
    + cbn zeta. repeat split;
        try (unfold BufferObject.data, BufferObject.data_vector,
               BufferObject.subData, BufferObject.subData_vector;
             by apply checked_fails).
      apply issued_gl.
    + cbn zeta.
      split; [|split; [|split; [|split]]];
        try (unfold BufferObject.data, BufferObject.data_vector,
               BufferObject.subData, BufferObject.subData_vector;
             by apply unchecked_runs).
      intros NA. split; eexists.
      * unfold BufferObject.data.
        rewrite (unchecked_runs cfg T CFDE b _ w E).
        rewrite (no_vertex_array_check T CFDE _ w NA), Data_run.
        split; [reflexivity | apply issued_gl].
      * unfold BufferObject.subData.
        rewrite (unchecked_runs cfg T CFDE b _ w E).
        rewrite (no_vertex_array_check T CFDE _ w NA), SubData_run.
        split; [reflexivity | apply issued_gl].
  - intros e w1 E. split.
    + by apply Map_run_fail.
    + by apply Map_range_run_fail.
  - intros w1 E. split; do 2 eexists.
    + rewrite (Map_run_pass T CFD access w w1 E).
      split; [reflexivity|]. apply issued_app.
      rewrite !calls_gl. by rewrite <- app_assoc.
    + rewrite (Map_range_run_pass T CFD offset length flags w w1 E).
      split; [reflexivity|]. apply issued_app.
      rewrite !calls_gl. by rewrite <- app_assoc.
Qed.

Lemma upload_requires_current_witness :
  (BufferObject.data default_config BufferType.Array compiled_out
     (BufferObject.mk 1) 16 65536 BufferUsage.StaticDraw world_bound).1
  = inl BindingError
  /\ (BufferObject.data release_config BufferType.Texture compiled_out
        (BufferObject.mk 1) 16 65536 BufferUsage.StaticDraw world_bound).1
     = inr ().
Proof.
  split.
  - assert (N : buffer_ (BufferObject.mk 1)
                <> currentlyBoundBuffer BufferType.Array world_bound)
      by (vm_compute; discriminate).
    pose proof (upload_requires_current default_config BufferType.Array
                  compiled_out compiled_out
                  (BufferObject.mk 1) world_bound 16 65536
                  BufferUsage.StaticDraw 0 4 (mkVector 4 65536)
                  BufferMapAccess.ReadWrite 8
                  BufferObject.Map_range_default_access N) as [H _].
    change (bindcheck default_config) with true in H.
    destruct H as [H _]. rewrite H. reflexivity.
  - assert (N : buffer_ (BufferObject.mk 1)
                <> currentlyBoundBuffer BufferType.Texture world_bound)
      by (vm_compute; discriminate).
    pose proof (upload_requires_current release_config BufferType.Texture
                  compiled_out compiled_out
                  (BufferObject.mk 1) world_bound 16 65536
                  BufferUsage.StaticDraw 0 4 (mkVector 4 65536)
                  BufferMapAccess.ReadWrite 8
                  BufferObject.Map_range_default_access N) as [H _].
    change (bindcheck release_config) with false in H.
    destruct H as (_ & _ & _ & _ & H).
    destruct H as [(w' & H & _) _]; [discriminate|].
    rewrite H. reflexivity.
Defined.

(** C5 as stated fails: with validation enabled and buffer [1] not the
    current one (buffer [2] is bound), the failing [data] call has made a
    driver call before it fails, the binding query of [isBound()], and the
    world it leaves has that call in its log. *)
Lemma failed_upload_has_called_the_driver :
  bindcheck default_config = true
  /\ buffer_ (BufferObject.mk 1)
     <> currentlyBoundBuffer BufferType.Array world_bound
  /\ (BufferObject.data default_config BufferType.Array compiled_out
        (BufferObject.mk 1) 16 65536 BufferUsage.StaticDraw world_bound).1
     = inl BindingError
  /\ issued world_bound
       (BufferObject.data default_config BufferType.Array compiled_out
          (BufferObject.mk 1) 16 65536 BufferUsage.StaticDraw world_bound).2
     = [GetIntegerv (BUFFER_BINDING BufferType.Array)].
Proof.
  split; [reflexivity|]. split; [vm_compute; discriminate|].
  split; vm_compute; reflexivity.
Qed.

(** ** [BufferObject]: the vector overloads *)

Lemma to_GLsizei_id x : 0 <= x < 2 ^ 31 -> to_GLsizei x = x.
Proof. intros H. apply wrap_signed_id; simpl; lia. Qed.

Lemma to_GLsizeiptr_id x : - 2 ^ 31 <= x < 2 ^ 31 -> to_GLsizeiptr x = x.
Proof. intros H. apply wrap_signed_id; simpl; lia. Qed.

Lemma to_size_t_id x : 0 <= x < 2 ^ 31 -> to_size_t x = x.
Proof. intros H. apply wrap_unsigned_id; simpl; lia. Qed.

(** C8, as the code has it.  For a vector whose size in bytes,
    [v.size() * sizeof(GLtype)], fits the [GLsizei] parameter of the
    pointer overloads, [Data(v, usage)] and [SubData(offset, v)] issue the
    very driver call that [Data(size, ptr, usage)] and
    [SubData(offset, size, ptr)] issue with [size = v.size() *
    sizeof(GLtype)] and [ptr = v.data()]. *)
Theorem vector_overloads_agree
  (T sizeof offset usage : Z) (v : std_vector) (w : World) :
  0 <= v_size v * sizeof < 2 ^ 31 ->
  BufferObject.Data_vector T sizeof v usage w
  = Data_of_vector T sizeof v usage w
  /\ BufferObject.SubData_vector T sizeof offset v w
     = SubData_of_vector T sizeof offset v w
  /\ issued w (BufferObject.Data_vector T sizeof v usage w).2
     = [BufferData T (v_size v * sizeof) (v_data v) usage]
  /\ issued w (BufferObject.SubData_vector T sizeof offset v w).2
     = [BufferSubData T (to_GLintptr offset) (v_size v * sizeof) (v_data v)].
Proof.
  intros H. unfold Data_of_vector, SubData_of_vector.
  rewrite Data_vector_run, SubData_vector_run, Data_run, SubData_run.
  rewrite (to_size_t_id _ H), (to_GLsizei_id _ H).
  rewrite to_GLsizeiptr_id by lia.
  repeat split; apply issued_gl.
Qed.

Lemma vector_overloads_agree_witness :
  BufferObject.Data_vector BufferType.Array 4 (mkVector 3 65536)
    BufferUsage.StaticDraw world_bound
  = Data_of_vector BufferType.Array 4 (mkVector 3 65536)
      BufferUsage.StaticDraw world_bound
  /\ BufferObject.SubData_vector BufferType.Array 4 8 (mkVector 3 65536)
       world_bound
     = SubData_of_vector BufferType.Array 4 8 (mkVector 3 65536) world_bound
  /\ issued world_bound
       (BufferObject.Data_vector BufferType.Array 4 (mkVector 3 65536)
          BufferUsage.StaticDraw world_bound).2
     = [BufferData BufferType.Array (v_size (mkVector 3 65536) * 4)
          (v_data (mkVector 3 65536)) BufferUsage.StaticDraw]
  /\ issued world_bound
       (BufferObject.SubData_vector BufferType.Array 4 8 (mkVector 3 65536)
          world_bound).2
     = [BufferSubData BufferType.Array (to_GLintptr 8)
          (v_size (mkVector 3 65536) * 4) (v_data (mkVector 3 65536))].
Proof.
  apply (vector_overloads_agree BufferType.Array 4 8 BufferUsage.StaticDraw
           (mkVector 3 65536) world_bound).
  simpl. lia.
Defined.

(** C8 as stated fails: for a vector of two gibibytes the vector overload
    passes the size [2^31] to the driver, the pointer overload, whose
    [size] is a [GLsizei], passes [-2^31]. *)
Lemma big_vector_overloads_differ :
  issued world_bound
    (BufferObject.Data_vector BufferType.Array 4 big_vector
       BufferUsage.StaticDraw world_bound).2
  = [BufferData BufferType.Array 2147483648 65536 BufferUsage.StaticDraw]
  /\ issued world_bound
       (Data_of_vector BufferType.Array 4 big_vector
          BufferUsage.StaticDraw world_bound).2
     = [BufferData BufferType.Array (-2147483648) 65536 BufferUsage.StaticDraw]
  /\ BufferObject.Data_vector BufferType.Array 4 big_vector
       BufferUsage.StaticDraw world_bound
     <> Data_of_vector BufferType.Array 4 big_vector
          BufferUsage.StaticDraw world_bound.
Proof.
  split; [vm_compute; reflexivity|]. split; [vm_compute; reflexivity|].
  intros E. apply (f_equal (fun r => calls (driver r.2))) in E.
  vm_compute in E. discriminate E.
Qed.

(** * Part II, continued: the rest of the code *)

(** ** [Bitfield]: flags, order and compound assignments *)

Lemma to_GLbitfield_land_r x y :
  0 <= y < 2 ^ 32 -> to_GLbitfield (Z.land x y) = Z.land x y.
Proof.
  intros Hy. apply Z.bits_inj'. intros i Hi.
  rewrite to_GLbitfield_testbit, Z.land_spec.
  destruct (Z.ltb_spec i 32) as [|Hge]; [done|].
  rewrite (GLbitfield_high_bits y i) by done. by rewrite andb_false_r.
Qed.

Lemma to_GLbitfield_lxor x y :
  0 <= x < 2 ^ 32 -> 0 <= y < 2 ^ 32 ->
  to_GLbitfield (Z.lxor x y) = Z.lxor x y.
Proof.
  intros Hx Hy. apply Z.bits_inj'. intros i Hi.
  rewrite to_GLbitfield_testbit, Z.lxor_spec.
  destruct (Z.ltb_spec i 32) as [|Hge]; [done|].
  by rewrite (GLbitfield_high_bits x i), (GLbitfield_high_bits y i).
Qed.

Section BitfieldMore.

Context {Bit : Type} (underlying : Bit -> Z) (wide : bool).

#[local] Abbreviation value := (Bitfield.GLbitfield_of underlying).
#[local] Abbreviation fits := (fits_GLbitfield underlying wide).

Lemma value_range b : 0 <= value b < 2 ^ 32.
Proof. apply to_GLbitfield_range. Qed.

(** A flag whose value does not fit a [GLbitfield] is never found in a
    field: the comparison is made in the wider type of the flag, where the
    field has no bit above the 32nd and is not negative. *)
Lemma test_unfit (f : Bitfield.t) (b : Bit) :
  Bitfield_wf f -> ~ fits b -> Bitfield.test underlying wide f b = false.
Proof.
  unfold Bitfield_wf, fits_GLbitfield, Bitfield.test, Bitfield.in_common_type.
  intros Hf Hb. destruct wide; [|exfalso; apply Hb; by left].
  apply Z.eqb_neq. intros E. apply Hb. right.
  assert (N : 0 <= underlying b).
  { rewrite <- E. apply Z.land_nonneg. left. lia. }
  split; [done|].
  destruct (Z.eq_dec (underlying b) 0) as [->|Hnz]; [done|].
  apply Z.log2_lt_pow2; [lia|].
  pose proof (Z.log2_land (Bitfield.bits_ f) (underlying b)
                (proj1 Hf) N) as L.
  rewrite E in L.
  assert (Z.log2 (Bitfield.bits_ f) < 32); [|lia].
  destruct (Z.eq_dec (Bitfield.bits_ f) 0) as [->|Hfz]; [done|].
  apply Z.log2_lt_pow2; lia.
Qed.

Lemma fits_dec (b : Bit) : fits b \/ ~ fits b.
Proof.
  unfold fits_GLbitfield. destruct wide; [|by left; left].
  destruct (decide (0 <= underlying b < 2 ^ 32)) as [|N]; [by left; right|].
  right. intros [|]; done.
Qed.

Lemma land_wf_value (x : Z) (b : Bit) :
  0 <= x < 2 ^ 32 -> Z.land x (value b) = Z.land x (underlying b).
Proof.
  intros Hx. apply Z.bits_inj'. intros i _.
  unfold Bitfield.GLbitfield_of.
  rewrite !Z.land_spec, to_GLbitfield_testbit.
  destruct (Z.ltb_spec i 32) as [|Hge]; [done|].
  by rewrite (GLbitfield_high_bits x i).
Qed.

Lemma fold_lor_testbit (l : list Bit) acc i :
  Z.testbit (fold_left (fun acc b => Z.lor acc (value b)) l acc) i = true
  <-> Z.testbit acc i = true
      \/ exists b, b ∈ l /\ Z.testbit (value b) i = true.
Proof.
  revert acc. induction l as [|b l IH]; intros acc; cbn [fold_left].
  - split; [by left|]. intros [|(b & Hb & _)]; [done|].
    by apply not_elem_of_nil in Hb.
  - rewrite IH, Z.lor_spec, orb_true_iff. split.
    + intros [[|]|(b' & Hb' & Ht)]; [by left | right | right].
      * exists b. split; [apply elem_of_cons; by left | done].
      * exists b'. split; [apply elem_of_cons; by right | done].
    + intros [|(b' & Hb' & Ht)]; [by left; left|].
      apply elem_of_cons in Hb' as [->|Hb'].
      * by left; right.
      * right. by exists b'.
Qed.

Lemma fold_lor_range (l : list Bit) acc :
  0 <= acc < 2 ^ 32 ->
  0 <= fold_left (fun acc b => Z.lor acc (value b)) l acc < 2 ^ 32.
Proof.
  revert acc. induction l as [|b l IH]; intros acc Hacc; [done|].
  cbn [fold_left]. apply IH, lor_GLbitfield_range; [done | apply value_range].
Qed.

(** X1. The initializer-list constructor sets exactly the low 32 bits of
    the listed flags: bit [i] is set in [Bitfield{b1, ..., bn}] if and only
    if [i < 32] and bit [i] is set in the value of one of the [bi]; the
    field stays within the 32 bits of [GLbitfield].  Hence [test] holds of
    every listed flag that fits a [GLbitfield], and of no flag that does
    not fit, listed or not. *)
Theorem of_list_sets_listed_flags (l : list Bit) :
  Bitfield_wf (Bitfield.of_list underlying l)
  /\ (forall i,
        Z.testbit (Bitfield.bits_ (Bitfield.of_list underlying l)) i = true
        <-> i < 32 /\ exists b, b ∈ l /\ Z.testbit (underlying b) i = true)
  /\ (forall b, b ∈ l -> fits b ->
        Bitfield.test underlying wide (Bitfield.of_list underlying l) b = true)
  /\ (forall b, ~ fits b ->
        Bitfield.test underlying wide (Bitfield.of_list underlying l) b
        = false).
Proof.
  assert (W : Bitfield_wf (Bitfield.of_list underlying l)).
  { unfold Bitfield_wf, Bitfield.of_list. cbn [Bitfield.bits_].
    apply fold_lor_range. lia. }
  assert (B : forall i,
             Z.testbit (Bitfield.bits_ (Bitfield.of_list underlying l)) i = true
             <-> exists b, b ∈ l /\ Z.testbit (value b) i = true).
  { intros i. unfold Bitfield.of_list. cbn [Bitfield.bits_].
    rewrite fold_lor_testbit, Z.bits_0.
    split; [intros [?|?]; done | by right]. }
  split; [exact W|]. split; [|split].
  - intros i. rewrite B. unfold Bitfield.GLbitfield_of. split.
    + intros (b & Hb & Ht). rewrite to_GLbitfield_testbit in Ht.
      apply andb_true_iff in Ht as [Hi Ht]. apply Z.ltb_lt in Hi.
      split; [done|]. by exists b.
    + intros (Hi & b & Hb & Ht). exists b. split; [done|].
      rewrite to_GLbitfield_testbit, Ht, andb_true_r. by apply Z.ltb_lt.
  - intros b Hb Hfit. unfold Bitfield.test.
    rewrite (promoted_fits underlying wide b Hfit).
    apply Z.eqb_eq, land_eq_iff_bits.
    intros i Hi. apply B. eauto.
  - intros b Hb. by apply test_unfit.
Qed.

(** X2. [test(Bitfield)] is the inclusion order of flag sets: it is
    reflexive, transitive and antisymmetric, and the empty field is
    included in every field. *)
Theorem test_field_is_inclusion (f g h : Bitfield.t) :
  Bitfield.test_field f f = true
  /\ Bitfield.test_field f Bitfield.empty = true
  /\ (Bitfield.test_field f g = true -> Bitfield.test_field g h = true ->
      Bitfield.test_field f h = true)
  /\ (Bitfield.test_field f g = true -> Bitfield.test_field g f = true ->
      f = g).
Proof.
  unfold Bitfield.test_field, Bitfield.to_bits. rewrite !Z.eqb_eq.
  split; [apply Z.land_diag|]. split; [apply Z.land_0_r|]. split.
  - rewrite !land_eq_iff_bits. naive_solver.
  - intros E1 E2. apply Bitfield_ext. rewrite <- E1, Z.land_comm. done.
Qed.


(** X3. Toggling and masking one flag [b] of a field [f] that holds a
    [GLbitfield] value: [(f ^ b) ^ b] is [f] again; [(f & b).test(b)] is
    [f.test(b)]; and [(f ^ b).test(b)] holds exactly when [b] fits a
    [GLbitfield] and no bit of [b] was set in [f]. *)
Theorem xor_and_one_flag (f : Bitfield.t) (b : Bit) :
  Bitfield_wf f ->
  Bitfield.xor_bit underlying (Bitfield.xor_bit underlying f b) b = f
  /\ Bitfield.test underlying wide (Bitfield.and_bit underlying f b) b
     = Bitfield.test underlying wide f b
  /\ (Bitfield.test underlying wide (Bitfield.xor_bit underlying f b) b = true
      <-> fits b /\ Z.land (Bitfield.bits_ f) (underlying b) = 0).
Proof.
  intros Hf. pose proof (value_range b) as Hb.
  assert (Wx : Bitfield_wf (Bitfield.xor_bit underlying f b)).
  { unfold Bitfield_wf, Bitfield.xor_bit, Bitfield.of_bits.
    cbn [Bitfield.bits_]. apply to_GLbitfield_range. }
  assert (Wa : Bitfield_wf (Bitfield.and_bit underlying f b)).
  { unfold Bitfield_wf, Bitfield.and_bit, Bitfield.of_bits.
    cbn [Bitfield.bits_]. apply to_GLbitfield_range. }
  split; [|destruct (fits_dec b) as [Hfit|Hfit]].
  - unfold Bitfield.xor_bit, Bitfield.of_bits. cbn [Bitfield.bits_].
    rewrite (to_GLbitfield_lxor _ _ Hf Hb).
    apply Bitfield_ext. cbn [Bitfield.bits_].
    rewrite to_GLbitfield_lxor.
    + by rewrite Z.lxor_assoc, Z.lxor_nilpotent, Z.lxor_0_r.
    + rewrite <- (to_GLbitfield_lxor _ _ Hf Hb). apply to_GLbitfield_range.
    + done.
  - rewrite <- (land_wf_value _ b Hf).
    unfold Bitfield.test. rewrite (promoted_fits underlying wide b Hfit).
    unfold Bitfield.xor_bit, Bitfield.and_bit, Bitfield.of_bits.
    cbn [Bitfield.bits_].
    rewrite (to_GLbitfield_lxor _ _ Hf Hb), (to_GLbitfield_land_r _ _ Hb).
    split.
    + by rewrite <- Z.land_assoc, Z.land_diag.
    + rewrite Z.eqb_eq, land_eq_iff_bits. split.
      * intros H. split; [done|]. apply Z.bits_inj'. intros i _.
        rewrite Z.land_spec, Z.bits_0.
        destruct (Z.testbit (value b) i) eqn:E; [|by rewrite andb_false_r].
        specialize (H i E). rewrite Z.lxor_spec, E in H.
        destruct (Z.testbit (Bitfield.bits_ f) i); done.
      * intros [_ H] i E. rewrite Z.lxor_spec, E.
        apply (f_equal (fun z => Z.testbit z i)) in H.
        rewrite Z.land_spec, E, Z.bits_0, andb_true_r in H. by rewrite H.
  - rewrite !test_unfit by done. split; [done|].
    split; [done | by intros [? _]].
Qed.




End BitfieldMore.

Lemma test_field_is_inclusion_witness :
  Bitfield.test_field (Bitfield.mk 7) (Bitfield.mk 1) = true.
Proof.
  destruct (test_field_is_inclusion (Bitfield.mk 7) (Bitfield.mk 3)
              (Bitfield.mk 1)) as (_ & _ & T & _).
  apply T; reflexivity.
Defined.

Lemma xor_and_one_flag_witness :
  Bitfield.xor_bit BufferMapAccessFlags_value
    (Bitfield.xor_bit BufferMapAccessFlags_value (Bitfield.mk 5) Write_Bit)
    Write_Bit = Bitfield.mk 5.
Proof.
  apply (xor_and_one_flag BufferMapAccessFlags_value false (Bitfield.mk 5)
           Write_Bit).
  unfold Bitfield_wf. simpl. lia.
Defined.


(** ** The configuration, in general *)

Lemma negb_eqb_0 v : negb (v =? 0) = true <-> v <> 0.
Proof. destruct (Z.eqb_spec v 0); cbn; split; intros; done. Qed.

(** X5. Validation is enabled exactly when [OGLWRAP_BINDCHECK] is defined
    by the user to a non-zero value, or is left undefined while
    [OGLWRAP_DEBUG] is undefined or non-zero: an explicit
    [OGLWRAP_BINDCHECK] decides whatever [OGLWRAP_DEBUG] is. *)
Theorem bindcheck_iff (cfg : Config) :
  bindcheck cfg = true
  <-> match user_OGLWRAP_BINDCHECK cfg with
      | Some v => v <> 0
      | None => match user_OGLWRAP_DEBUG cfg with
                | Some d => d <> 0
                | None => True
                end
      end.
Proof.
  unfold bindcheck, OGLWRAP_BINDCHECK, OGLWRAP_DEBUG, pp_true.
  destruct cfg as [[d|] [v|]]; cbn.
  - destruct (d =? 0); cbn; apply negb_eqb_0.
  - destruct (Z.eqb_spec d 0); cbn; split; intros; done.
  - apply negb_eqb_0.
  - done.
Qed.

(** ** [BufferObject]: targets, unbinding and the checks of an upload *)

Lemma bound_after_bind_ne T T' x w :
  T <> T' ->
  bound_buffer (driver (gl (BindBuffer T x) w).2) T' = bound_buffer (driver w) T'.
Proof. intros N. unfold bound_buffer. simpl. by rewrite lookup_insert_ne. Qed.

Lemma current_after_bind T x w :
  is_GLuint x -> currentlyBoundBuffer T (gl (BindBuffer T x) w).2 = x.
Proof.
  intros Hx. unfold currentlyBoundBuffer, getBindingTarget. cbn [answer].
  by rewrite bound_after_bind, GLuint_of_GLint.
Qed.

Lemma current_after_query T p w :
  currentlyBoundBuffer T (gl (GetIntegerv p) w).2 = currentlyBoundBuffer T w.
Proof. reflexivity. Qed.

(** X6. Targets are independent: binding a buffer to another target leaves
    the buffer that is current on this one current, so after [A] has been
    bound to [T1] and [B] to [T2], [isBound()] is true of both. *)
Theorem bind_other_target_keeps_current
  (T1 T2 : Z) (A B : BufferObject.t) (w : World) :
  T1 <> T2 -> is_GLuint (buffer_ A) -> is_GLuint (buffer_ B) ->
  ((BufferObject.bind T1 A;; BufferObject.bind T2 B;;
    a ← BufferObject.isBound T1 A;
    b ← BufferObject.isBound T2 B;
    mret (a, b)) w).1 = inr (true, true).
Proof.
  intros N HA HB.
  run. rewrite !bind_run. cbn [snd].
  rewrite !isBound_run. cbn [fst snd].
  rewrite bound_after_query, bound_after_bind.
  rewrite bound_after_bind_ne by done. rewrite bound_after_bind.
  rewrite !GLuint_of_GLint by done. by rewrite !Z.eqb_refl.
Qed.

Lemma bind_other_target_keeps_current_witness :
  ((BufferObject.bind BufferType.Array (BufferObject.mk 1);;
    BufferObject.bind BufferType.Texture (BufferObject.mk 2);;
    a ← BufferObject.isBound BufferType.Array (BufferObject.mk 1);
    b ← BufferObject.isBound BufferType.Texture (BufferObject.mk 2);
    mret (a, b)) world0).1 = inr (true, true).
Proof.
  apply (bind_other_target_keeps_current BufferType.Array BufferType.Texture
           (BufferObject.mk 1) (BufferObject.mk 2) world0).
  - discriminate.
  - unfold is_GLuint. simpl. lia.
  - unfold is_GLuint. simpl. lia.
Defined.

(** X7. [unbind] called through a buffer that is not the current one: with
    validation enabled it fails with a BindingError and the current buffer
    stays bound; with validation disabled it unbinds the target all the
    same, so the buffer that was current no longer is. *)
Theorem unbind_through_other_buffer
  (cfg : Config) (T : Z) (r : BufferObject.t) (w : World) :
  buffer_ r <> currentlyBoundBuffer T w ->
  exists w',
    (BufferObject.unbind cfg T r w).2 = w'
    /\ if bindcheck cfg then
         (BufferObject.unbind cfg T r w).1 = inl BindingError
         /\ issued w w' = [GetIntegerv (BUFFER_BINDING T)]
         /\ currentlyBoundBuffer T w' = currentlyBoundBuffer T w
       else
         (BufferObject.unbind cfg T r w).1 = inr ()
         /\ issued w w' = [BindBuffer T 0]
         /\ currentlyBoundBuffer T w' = 0.
Proof.
  intros N. eexists. split; [reflexivity|].
  destruct (bindcheck cfg) eqn:E.
  - rewrite (unbind_run_on cfg T r w E). cbn zeta.
    apply Z.eqb_neq in N. unfold currentlyBoundBuffer in N. cbn in N.
    rewrite N. cbn [fst snd]. split; [done|]. split; [apply issued_gl | done].
  - rewrite (unbind_run_off cfg T r w E). cbn [fst snd].
    split; [done|]. split; [apply issued_gl|].
    apply current_after_bind. unfold is_GLuint. lia.
Qed.

Lemma unbind_through_other_buffer_witness :
  exists w',
    (BufferObject.unbind release_config BufferType.Array (BufferObject.mk 1)
       world_bound).2 = w'
    /\ if bindcheck release_config then
         (BufferObject.unbind release_config BufferType.Array
            (BufferObject.mk 1) world_bound).1 = inl BindingError
         /\ issued world_bound w'
            = [GetIntegerv (BUFFER_BINDING BufferType.Array)]
         /\ currentlyBoundBuffer BufferType.Array w'
            = currentlyBoundBuffer BufferType.Array world_bound
       else
         (BufferObject.unbind release_config BufferType.Array
            (BufferObject.mk 1) world_bound).1 = inr ()
         /\ issued world_bound w' = [BindBuffer BufferType.Array 0]
         /\ currentlyBoundBuffer BufferType.Array w' = 0.
Proof.
  apply (unbind_through_other_buffer release_config BufferType.Array
           (BufferObject.mk 1) world_bound).
  vm_compute. discriminate.
Defined.

(** X8. With validation enabled, [data] through the current buffer.  For
    a target other than [BufferType::Array] the upload follows the binding
    query.  For [BufferType::Array] the macro
    [CHECK_FOR_DEFAULT_BINDING_EXPLICIT], whatever its expansion [CFDE], is
    run on [GL_VERTEX_ARRAY_BINDING] after the query: if it throws, [data]
    throws the same and uploads nothing; if it returns, the upload is the
    next and last call. *)
Theorem data_through_current_buffer
  (cfg : Config) (T : Z) (CFDE : GLpname -> GL unit) (b : BufferObject.t)
  (size p usage : Z) (w : World) :
  bindcheck cfg = true -> buffer_ b = currentlyBoundBuffer T w ->
  let w1 := (gl (GetIntegerv (BUFFER_BINDING T)) w).2 in
  let upload := BufferData T (to_GLsizeiptr (to_GLsizei size)) p usage in
  (T <> BufferType.Array ->
   exists w',
     BufferObject.data cfg T CFDE b size p usage w = (inr (), w')
     /\ issued w w' = [GetIntegerv (BUFFER_BINDING T); upload])
  /\ (T = BufferType.Array ->
      (forall e w2,
         CFDE GL_VERTEX_ARRAY_BINDING w1 = (inl e, w2) ->
         BufferObject.data cfg T CFDE b size p usage w = (inl e, w2))
      /\ (forall w2,
            CFDE GL_VERTEX_ARRAY_BINDING w1 = (inr (), w2) ->
            exists w',
              BufferObject.data cfg T CFDE b size p usage w = (inr (), w')
              /\ issued w2 w' = [upload])).
Proof.
  intros E C w1 upload.
  assert (R : BufferObject.data cfg T CFDE b size p usage w
              = ((if T =? BufferType.Array
                  then CFDE GL_VERTEX_ARRAY_BINDING else mret ());;
                 BufferObject.Data T size p usage) w1).
  { unfold BufferObject.data. run.
    by rewrite (check_upload_passes cfg T CFDE b w E C). }
  split.
  - intros NA. rewrite R, (no_vertex_array_check T CFDE _ w1 NA), Data_run.
    eexists. split; [reflexivity|]. apply issued_app.
    subst w1. rewrite !calls_gl. by rewrite <- app_assoc.
  - intros ->. rewrite R. rewrite Z.eqb_refl. split.
    + intros e w2 F. run. by rewrite F.
    + intros w2 F. run. rewrite F. eexists. split; [reflexivity|].
      exact (issued_gl upload w2).
Qed.

Lemma data_through_current_buffer_witness :
  exists w',
    BufferObject.data default_config BufferType.Array compiled_out
      (BufferObject.mk 2) 16 65536 BufferUsage.StaticDraw world_bound
    = (inr (), w')
    /\ issued
         (gl (GetIntegerv (BUFFER_BINDING BufferType.Array)) world_bound).2 w'
       = [BufferData BufferType.Array 16 65536 BufferUsage.StaticDraw].
Proof.
  destruct (data_through_current_buffer default_config BufferType.Array
              compiled_out (BufferObject.mk 2) 16 65536
              BufferUsage.StaticDraw world_bound)
    as [_ H]; [reflexivity | reflexivity |].
  destruct (H eq_refl) as [_ P].
  apply (P (gl (GetIntegerv (BUFFER_BINDING BufferType.Array)) world_bound).2).
  reflexivity.
Defined.

(** ** [BufferObject]: sizes and mappings *)

Lemma Size_run T w :
  BufferObject.Size T w
  = (inr (to_size_t
            (to_GLint (default 0 (buffer_size (driver w)
                                    !! bound_buffer (driver w) T)))),
     (gl (GetBufferParameteriv T GL_BUFFER_SIZE) w).2).
Proof. reflexivity. Qed.

Lemma Size_after_BufferData T s p usage w :
  (BufferObject.Size T (gl (BufferData T s p usage) w).2).1
  = inr (to_size_t (to_GLint s)).
Proof.
  rewrite Size_run. cbn [fst]. do 3 f_equal.
  unfold bound_buffer. cbn. by rewrite lookup_insert_eq.
Qed.

Lemma to_GLint_id x : 0 <= x < 2 ^ 31 -> to_GLint x = x.
Proof. intros H. apply wrap_signed_id; simpl; lia. Qed.

(** [Size()] hands a [GLint] on as a [size_t]: whatever the driver
    answers, the result is below [2^31] or within [2^31] of [2^64]. *)
Lemma Size_range T w :
  exists s, (BufferObject.Size T w).1 = inr s
            /\ (0 <= s < 2 ^ 31 \/ 2 ^ 64 - 2 ^ 31 <= s < 2 ^ 64).
Proof.
  rewrite Size_run. cbn [fst]. eexists. split; [reflexivity|].
  set (x := default 0 _).
  assert (R : - 2 ^ 31 <= to_GLint x < 2 ^ 31).
  { unfold to_GLint, Int.wrap_signed. change (2 ^ (32 - 1)) with (2 ^ 31).
    pose proof (Z.mod_pos_bound (x + 2 ^ 31) (2 ^ 32)). lia. }
  destruct (Z.lt_ge_cases (to_GLint x) 0) as [Hn|Hp].
  - right. unfold to_size_t, Int.wrap_unsigned.
    replace (to_GLint x) with (to_GLint x + 2 ^ 64 + (-1) * 2 ^ 64) by lia.
    rewrite Z.mod_add by lia. rewrite Z.mod_small; lia.
  - left. unfold to_size_t, Int.wrap_unsigned. rewrite Z.mod_small; lia.
Qed.

(** X9. What [Size()] reports after an upload to the bound buffer.  After
    [Data(size, ptr, usage)] with [0 <= size < 2^31] it is [size]; after
    [Data(v, usage)] it is the size of the vector in bytes as long as that
    is below [2^31].  A vector of [2^31] bytes or more is never reported
    with its size, because [Size()] reads the size into a [GLint]. *)
Theorem Size_after_Data
  (T size p usage sizeof : Z) (v : std_vector) (w : World) :
  bound_buffer (driver w) T <> 0 ->
  (0 <= size < 2 ^ 31 ->
   ((BufferObject.Data T size p usage;; BufferObject.Size T) w).1 = inr size)
  /\ (0 <= v_size v * sizeof < 2 ^ 31 ->
      ((BufferObject.Data_vector T sizeof v usage;; BufferObject.Size T) w).1
      = inr (v_size v * sizeof))
  /\ (2 ^ 31 <= v_size v * sizeof < 2 ^ 64 - 2 ^ 31 ->
      ((BufferObject.Data_vector T sizeof v usage;; BufferObject.Size T) w).1
      <> inr (v_size v * sizeof)).
Proof.
  intros _. split; [|split]; intros H; run.
  - rewrite Data_run. cbn [snd]. rewrite Size_after_BufferData.
    rewrite (to_GLsizei_id _ H), to_GLsizeiptr_id by lia.
    by rewrite (to_GLint_id _ H), (to_size_t_id _ H).
  - rewrite Data_vector_run. cbn [snd]. rewrite Size_after_BufferData.
    rewrite (to_size_t_id _ H), to_GLsizeiptr_id by lia.
    by rewrite (to_GLint_id _ H), (to_size_t_id _ H).
  - rewrite Data_vector_run. cbn [snd].
    destruct (Size_range T (gl (BufferData T
                (to_GLsizeiptr (to_size_t (v_size v * sizeof)))
                (v_data v) usage) w).2) as (s & -> & R).
    intros [= ->]. lia.
Qed.

Lemma Size_after_Data_witness :
  ((BufferObject.Data_vector BufferType.Array 4 big_vector
      BufferUsage.StaticDraw;; BufferObject.Size BufferType.Array)
     world_bound).1
  <> inr (v_size big_vector * 4).
Proof.
  destruct (Size_after_Data BufferType.Array 16 65536 BufferUsage.StaticDraw
              4 big_vector world_bound) as (_ & _ & H).
  - vm_compute. discriminate.
  - apply H. vm_compute. split; [discriminate | reflexivity].
Defined.

(** X10. The mapping of a range reports the size of the whole buffer: when
    the check of the constructors passes, leaving the buffers as they were,
    [size()] of the mapping is what [Size()] returns for the bound buffer,
    whatever [offset] and [length] are, and so equals [size()] of a mapping
    of the whole buffer. *)
Theorem Map_range_size_is_buffer_size
  (T : Z) (CFD : GLpname -> GL unit) (offset length : Z)
  (access : Bitfield.t) (access' : Z) (w w0 : World) :
  CFD (getBindingTarget T) w = (inr (), w0) ->
  same_buffers (driver w) (driver w0) ->
  exists m m' w1 w2,
    BufferObject.Map_range T CFD offset length access w = (inr m, w1)
    /\ BufferObject.Map T CFD access' w = (inr m', w2)
    /\ (BufferObject.Size T w).1 = inr (TypedMap.size m)
    /\ TypedMap.size m = TypedMap.size m'.
Proof.
  intros E [Hb Hs].
  do 4 eexists.
  split; [apply (Map_range_run_pass T CFD offset length access w w0 E)|].
  split; [apply (Map_run_pass T CFD access' w w0 E)|].
  rewrite Size_run. unfold TypedMap.size, bound_buffer.
  cbn [fst BufferObject.m_size]. by rewrite Hb, Hs.
Qed.

Lemma Map_range_size_is_buffer_size_witness :
  exists m m' w1 w2,
    BufferObject.Map_range BufferType.Array compiled_out 8 4
      (BufferObject.Map_range_default_access) world_filled = (inr m, w1)
    /\ BufferObject.Map BufferType.Array compiled_out
         BufferMapAccess.ReadWrite world_filled = (inr m', w2)
    /\ (BufferObject.Size BufferType.Array world_filled).1
       = inr (TypedMap.size m)
    /\ TypedMap.size m = TypedMap.size m'.
Proof.
  apply (Map_range_size_is_buffer_size BufferType.Array compiled_out 8 4
           BufferObject.Map_range_default_access BufferMapAccess.ReadWrite
           world_filled world_filled).
  - reflexivity.
  - split; reflexivity.
Defined.



(** ** [TransformFeedback]: whole lives *)

(** The name the driver hands out next. *)
#[local] Abbreviation next_name w := (Z.of_nat (S (names_generated (driver w)))).
#[local] Abbreviation next_handle w := (fresh (dom (handles w))).

Lemma new_run w :
  TransformFeedback.new w
  = (inr (TransformFeedback.mk (next_handle w) TransformFeedback.none),
     mkWorld (gl GenTransformFeedbacks w).2.(driver)
       (<[next_handle w := mkHandle (next_name w) 1]> (handles w))).
Proof.
  unfold TransformFeedback.new, TransformFeedback.handle_create. run.
  by destruct (create_run GenTransformFeedbacks w) as [-> _].
Qed.

Lemma new_active_run mode w :
  exists w',
    TransformFeedback.new_active mode w
    = (inr (TransformFeedback.mk (next_handle w) TransformFeedback.working), w')
    /\ calls (driver w')
       = calls (driver w)
         ++ [GenTransformFeedbacks;
             BindTransformFeedback GL_TRANSFORM_FEEDBACK (next_name w);
             BeginTransformFeedback mode]
    /\ handles w'
       = <[next_handle w := mkHandle (next_name w) 1]> (handles w).
Proof.
  unfold TransformFeedback.new_active, TransformFeedback.handle_create. run.
  destruct (create_run GenTransformFeedbacks w) as [-> _].
  rewrite tf_bind_run. cbn [snd handles tf_handle TransformFeedback.handle].
  rewrite lookup_insert_eq. cbn [fmap option_fmap option_map default id].
  rewrite begin_run. eexists. split; [reflexivity|].
  split; [|reflexivity]. simpl. by rewrite <- !app_assoc.
Qed.

Lemma copy_run tf name k w :
  handles w !! tf_handle tf = Some (mkHandle name k) ->
  TransformFeedback.copy tf w
  = (inr tf, mkWorld (driver w)
               (<[tf_handle tf := mkHandle name (S k)]> (handles w))).
Proof.
  intros E. unfold TransformFeedback.copy, Handle.clone, Handle.get_block,
    Handle.set_block. run. rewrite E. by destruct tf.
Qed.

Lemma destroy_last_idle tf name w :
  handles w !! tf_handle tf = Some (mkHandle name 1) ->
  tf_state tf = TransformFeedback.none ->
  TransformFeedback.destroy tf w
  = (inr (), mkWorld (gl (DeleteTransformFeedbacks name) w).2.(driver)
               (<[tf_handle tf := mkHandle 0 0]> (handles w))).
Proof.
  intros E S. rewrite (destroy_idle tf w S).
  unfold TransformFeedback.handle_release. by apply release_last.
Qed.

(** X13. A scoped [TransformFeedback tf(mode)] is balanced: constructing
    the object and destroying it issues, in this order, the creation, the
    bind and the begin call, then the bind, the end and the delete call,
    all for the name the driver handed out, and leaves the handle
    released. *)
Theorem scoped_feedback_is_balanced (mode : Z) (w : World) :
  exists w',
    scoped_feedback mode w = (inr (), w')
    /\ issued w w'
       = [GenTransformFeedbacks;
          BindTransformFeedback GL_TRANSFORM_FEEDBACK (next_name w);
          BeginTransformFeedback mode;
          BindTransformFeedback GL_TRANSFORM_FEEDBACK (next_name w);
          EndTransformFeedback;
          DeleteTransformFeedbacks (next_name w)]
    /\ handles w' !! next_handle w = Some (mkHandle 0 0).
Proof.
  unfold scoped_feedback. run.
  destruct (new_active_run mode w) as (w1 & -> & C1 & H1).
  destruct (destroy_last_active
              (TransformFeedback.mk (next_handle w) TransformFeedback.working)
              (next_name w) w1) as (w2 & -> & C2 & H2).
  { cbn [tf_handle TransformFeedback.handle]. rewrite H1.
    apply lookup_insert_eq. }
  { discriminate. }
  exists w2. split; [done|]. split; [|exact H2].
  apply issued_app. rewrite C2, C1. by rewrite <- !app_assoc.
Qed.

(** X14. Two owners of one Active object, destroyed in either order.
    The copy shares the handle and is Active as the original is; making it
    issues no call.  Whichever of the two is destroyed first issues no
    call, and the one destroyed second issues the bind, the end and the
    delete call; the driver sees one session and one deletion. *)
Theorem two_owners_either_order (mode : Z) (w : World) :
  let closing :=
    [BindTransformFeedback GL_TRANSFORM_FEEDBACK (next_name w);
     EndTransformFeedback;
     DeleteTransformFeedbacks (next_name w)] in
  let expected :=
    [GenTransformFeedbacks;
     BindTransformFeedback GL_TRANSFORM_FEEDBACK (next_name w);
     BeginTransformFeedback mode] ++ closing in
  exists tf tf' w1 w2,
    TransformFeedback.new_active mode w = (inr tf, w1)
    /\ TransformFeedback.copy tf w1 = (inr tf', w2)
    /\ issued w1 w2 = []
    /\ tf_handle tf' = tf_handle tf
    /\ tf_state tf = TransformFeedback.working
    /\ tf_state tf' = TransformFeedback.working
    /\ (forall first second,
          (first = tf' /\ second = tf) \/ (first = tf /\ second = tf') ->
          exists w3 w4,
            TransformFeedback.destroy first w2 = (inr (), w3)
            /\ issued w2 w3 = []
            /\ TransformFeedback.destroy second w3 = (inr (), w4)
            /\ issued w3 w4 = closing
            /\ issued w w4 = expected)
    /\ (exists w',
          (tf ← TransformFeedback.new_active mode;
           tf' ← TransformFeedback.copy tf;
           TransformFeedback.destroy tf';;
           TransformFeedback.destroy tf) w = (inr (), w')
          /\ issued w w' = expected)
    /\ (exists w',
          two_owners_reversed mode w = (inr (), w')
          /\ issued w w' = expected).
Proof.
  intros closing expected.
  destruct (new_active_run mode w) as (w1 & N & C1 & H1).
  set (tf := TransformFeedback.mk (next_handle w) TransformFeedback.working)
    in *.
  assert (E1 : handles w1 !! tf_handle tf = Some (mkHandle (next_name w) 1))
    by (rewrite H1; apply lookup_insert_eq).
  pose proof (copy_run tf (next_name w) 1 w1 E1) as Ecopy.
  set (w2 := mkWorld (driver w1)
               (<[tf_handle tf := mkHandle (next_name w) 2]> (handles w1)))
    in *.
  assert (D1 : TransformFeedback.destroy tf w2
               = (inr (), mkWorld (driver w2)
                            (<[tf_handle tf := mkHandle (next_name w) 1]>
                               (handles w2)))).
  { apply (destroy_shared tf (next_name w) 0). apply lookup_insert_eq. }
  set (w3 := mkWorld (driver w2)
               (<[tf_handle tf := mkHandle (next_name w) 1]> (handles w2)))
    in *.
  destruct (destroy_last_active tf (next_name w) w3) as (w4 & D2 & C2 & H2);
    [apply lookup_insert_eq | discriminate |].
  assert (I : issued w w4 = expected).
  { apply issued_app. rewrite C2. cbn [w3 w2 driver]. rewrite C1.
    by rewrite <- !app_assoc. }
  assert (P : (TransformFeedback.destroy tf;; TransformFeedback.destroy tf) w2
              = (inr (), w4)).
  { run. by rewrite D1. }
  exists tf, tf, w1, w2.
  split; [exact N|]. split; [exact Ecopy|].
  split; [apply issued_app; simpl; by rewrite app_nil_r|]. do 3 (split; [done|]).
  split; [|split].
  - intros first second [[-> ->]|[-> ->]]; exists w3, w4;
      (split; [exact D1|]); (split; [apply issued_app; simpl; by rewrite app_nil_r|]);
      (split; [exact D2|]); (split; [by apply issued_app | exact I]).
  - exists w4. split; [|exact I]. run. rewrite N, Ecopy. exact P.
  - exists w4. split; [|exact I]. unfold two_owners_reversed. run.
    rewrite N, Ecopy. exact P.
Qed.

(** X15. A session begun after the object was copied is never ended when
    the owner that began it dies first.  The copy is made while Idle and
    stays Idle when the session is begun through the original.  The
    original, though Active, is not the last owner and its destruction
    issues nothing; the copy, the last owner, is Idle and its destruction
    only deletes.  The driver receives the creation, the begin and the
    delete call, and no end call. *)
Theorem session_begun_after_copy_is_not_ended (mode : Z) (w : World) :
  exists tf tf' begun w1 w2 w3 w4 w5,
    TransformFeedback.new w = (inr tf, w1)
    /\ issued w w1 = [GenTransformFeedbacks]
    /\ TransformFeedback.copy tf w1 = (inr tf', w2)
    /\ issued w1 w2 = []
    /\ tf_state tf' = TransformFeedback.none
    /\ TransformFeedback.begin mode tf w2 = (inr begun, w3)
    /\ issued w2 w3 = [BeginTransformFeedback mode]
    /\ tf_state begun = TransformFeedback.working
    /\ TransformFeedback.destroy begun w3 = (inr (), w4)
    /\ issued w3 w4 = []
    /\ TransformFeedback.destroy tf' w4 = (inr (), w5)
    /\ issued w4 w5 = [DeleteTransformFeedbacks (next_name w)]
    /\ begun_after_copy mode w = (inr (), w5)
    /\ issued w w5
       = [GenTransformFeedbacks; BeginTransformFeedback mode;
          DeleteTransformFeedbacks (next_name w)]
    /\ EndTransformFeedback ∉ issued w w5.
Proof.
  pose proof (new_run w) as N.
  set (tf := TransformFeedback.mk (next_handle w) TransformFeedback.none) in *.
  set (w1 := mkWorld (driver (gl GenTransformFeedbacks w).2)
               (<[next_handle w := mkHandle (next_name w) 1]> (handles w)))
    in *.
  assert (Ecopy : TransformFeedback.copy tf w1
                  = (inr tf, mkWorld (driver w1)
                               (<[tf_handle tf := mkHandle (next_name w) 2]>
                                  (handles w1)))).
  { apply (copy_run tf (next_name w) 1 w1). apply lookup_insert_eq. }
  set (w2 := mkWorld (driver w1)
               (<[tf_handle tf := mkHandle (next_name w) 2]> (handles w1)))
    in *.
  pose proof (begin_run mode tf w2) as B.
  set (begun := TransformFeedback.mk (tf_handle tf) TransformFeedback.working)
    in *.
  set (w3 := (gl (BeginTransformFeedback mode) w2).2) in *.
  assert (D1 : TransformFeedback.destroy begun w3
               = (inr (), mkWorld (driver w3)
                            (<[tf_handle begun := mkHandle (next_name w) 1]>
                               (handles w3)))).
  { apply (destroy_shared begun (next_name w) 0). apply lookup_insert_eq. }
  set (w4 := mkWorld (driver w3)
               (<[tf_handle begun := mkHandle (next_name w) 1]> (handles w3)))
    in *.
  assert (D2 : TransformFeedback.destroy tf w4
               = (inr (), mkWorld (gl (DeleteTransformFeedbacks (next_name w))
                                     w4).2.(driver)
                            (<[tf_handle tf := mkHandle 0 0]> (handles w4)))).
  { apply (destroy_last_idle tf (next_name w) w4); [|done].
    apply lookup_insert_eq. }
  set (w5 := mkWorld (gl (DeleteTransformFeedbacks (next_name w)) w4).2.(driver)
               (<[tf_handle tf := mkHandle 0 0]> (handles w4))) in *.
  assert (I : issued w w5
              = [GenTransformFeedbacks; BeginTransformFeedback mode;
                 DeleteTransformFeedbacks (next_name w)]).
  { apply issued_app. simpl. by rewrite <- !app_assoc. }
  exists tf, tf, begun, w1, w2, w3, w4, w5.
  split; [exact N|]. split; [apply issued_app; by simpl|].
  split; [exact Ecopy|]. split; [apply issued_app; simpl; by rewrite app_nil_r|]. split; [done|].
  split; [exact B|]. split; [apply issued_gl|]. split; [done|].
  split; [exact D1|]. split; [apply issued_app; simpl; by rewrite app_nil_r|].
  split; [exact D2|]. split; [apply issued_app; by simpl|].
  split; [|split; [exact I|]].
  - unfold begun_after_copy. run. rewrite N, Ecopy.
    change (TransformFeedback.begin mode tf w2) with (inr (A:=Error) begun, w3).
    cbn beta iota. rewrite D1. exact D2.
  - rewrite I. intros H. repeat (apply elem_of_cons in H as [H|H]; [done|]).
    by apply elem_of_nil in H.
Qed.

(** ** The guarded enumerations *)

Section EnumFacts.

Variable h : Enums.Header.

(** What a guarded line is initialised with, if it is there at all: the
    value of the macro, or, the macro missing and the line forced by
    [OGLWRAP_DEFINE_EVERYTHING], the value of the declaration of that
    name. *)
#[local] Abbreviation forced := (pp_true (Enums.OGLWRAP_DEFINE_EVERYTHING h)).
#[local] Abbreviation initialiser macro :=
  (match Enums.macros h !! macro with
   | Some v => Some v
   | None => if forced then Enums.declared h !! macro else None
   end).

(** A line that makes the enumeration ill-formed. *)
#[local] Abbreviation ill_formed macro :=
  ((exists v, initialiser macro = Some v /\ ~ 0 <= v < 2 ^ 32)
   \/ (forced = true /\ initialiser macro = None)).

Lemma enumerator_spec name macro :
  Enums.enumerator h name macro
  = match initialiser macro with
    | Some v => if Enums.is_GLenum v then Some [(name, v)] else None
    | None => if forced then None else Some []
    end.
Proof.
  unfold Enums.enumerator, Enums.guard, Enums.defined, Enums.lookup.
  destruct (Enums.macros h !! macro) as [v|] eqn:M.
  - by rewrite bool_decide_eq_true_2, orb_true_r by eauto.
  - rewrite bool_decide_eq_false_2, orb_false_r by (by intros [? ?]).
    destruct forced; [|done]. by destruct (Enums.declared h !! macro).
Qed.

Lemma enumerator_None name macro :
  Enums.enumerator h name macro = None <-> ill_formed macro.
Proof.
  rewrite enumerator_spec. unfold Enums.is_GLenum.
  destruct (initialiser macro) as [v|].
  - destruct (decide (0 <= v < 2 ^ 32)) as [R|R].
    + rewrite bool_decide_eq_true_2 by done. split; [done|].
      intros [(v' & [= <-] & N)|[_ ?]]; done.
    + rewrite bool_decide_eq_false_2 by done. split; [|done].
      intros _. left. by exists v.
  - destruct forced.
    + split; [|done]. intros _. by right.
    + split; [done|]. intros [(v' & ? & _)|[? _]]; done.
Qed.

(** An enumeration is ill-formed exactly when one of its lines is. *)
Lemma enum_None items :
  Enums.enum h items = None
  <-> exists name macro, (name, macro) ∈ items /\ ill_formed macro.
Proof.
  induction items as [|[name macro] items IH]; cbn [Enums.enum].
  - split; [done|]. intros (n & m & Hm & _). by apply elem_of_nil in Hm.
  - pose proof (enumerator_None name macro) as E.
    destruct (Enums.enumerator h name macro) as [e|]; cbn.
    + destruct (Enums.enum h items) as [es|]; cbn.
      * split; [done|]. intros (n & m & Hm & B).
        apply elem_of_cons in Hm as [[= -> ->]|Hm].
        -- discriminate (proj2 E B).
        -- discriminate (proj2 IH (ex_intro _ n (ex_intro _ m (conj Hm B)))).
      * split; [|done]. intros _.
        destruct (proj1 IH eq_refl) as (n & m & Hm & B).
        exists n, m. split; [apply elem_of_cons; by right | done].
    + split; [|done]. intros _. exists name, macro.
      split; [apply elem_of_cons; by left | by apply E].
Qed.

(** The enumerators of a well-formed enumeration are the lines that are
    there, in the order of declaration, each with its initialiser. *)
Lemma enum_Some_omap items : forall L,
  Enums.enum h items = Some L ->
  L = omap (fun '(name, macro) => v ← initialiser macro; Some (name, v))
        items.
Proof.
  induction items as [|[name macro] items IH]; intros L;
    cbn [Enums.enum omap list_omap].
  - by intros [= <-].
  - rewrite enumerator_spec.
    destruct (initialiser macro) as [v|]; cbn.
    + destruct (Enums.is_GLenum v); [|done]. cbn.
      destruct (Enums.enum h items) as [es|]; [|done]. cbn.
      intros [= <-]. f_equal. by apply IH.
    + destruct forced; [done|]. cbn.
      destruct (Enums.enum h items) as [es|]; [|done]. cbn.
      intros [= <-]. by apply IH.
Qed.

Lemma enum_elem items L n v :
  Enums.enum h items = Some L ->
  (n, v) ∈ L <-> exists macro, (n, macro) ∈ items
                             /\ initialiser macro = Some v.
Proof.
  intros E. rewrite (enum_Some_omap items L E), list_elem_of_omap. split.
  - intros ([n' m] & Hm & F). destruct (initialiser m) as [v'|] eqn:I; [|done].
    cbn in F. injection F as -> ->. by exists m.
  - intros (m & Hm & I). exists (n, m). split; [done|].
    cbn beta iota. by rewrite I.
Qed.

(** Every enumerator of a well-formed enumeration holds a [GLenum]. *)
Lemma enum_values items : forall L n v,
  Enums.enum h items = Some L -> (n, v) ∈ L -> 0 <= v < 2 ^ 32.
Proof.
  induction items as [|[name macro] items IH]; intros L n v;
    cbn [Enums.enum].
  - intros [= <-] H. by apply elem_of_nil in H.
  - rewrite enumerator_spec.
    destruct (Enums.enum h items) as [es|] eqn:Es.
    + destruct (initialiser macro) as [v'|]; cbn.
      * unfold Enums.is_GLenum.
        destruct (decide (0 <= v' < 2 ^ 32)) as [R|R].
        -- rewrite bool_decide_eq_true_2 by done. cbn. intros [= <-] H.
           apply elem_of_cons in H as [[= -> ->]|H]; [done|].
           by apply (IH es n v).
        -- by rewrite bool_decide_eq_false_2 by done.
      * destruct forced; [done|]. cbn. intros [= <-] H. by apply (IH es n v).
    + destruct (initialiser macro) as [v'|]; cbn.
      * by destruct (Enums.is_GLenum v').
      * by destruct forced.
Qed.

End EnumFacts.

Lemma IndexType_items_in_DataType_items p :
  p ∈ Enums.IndexType_items -> p ∈ Enums.DataType_items.
Proof.
  unfold Enums.IndexType_items, Enums.DataType_items. intros Hp.
  repeat (apply elem_of_cons in Hp as [->|Hp]);
    [| | |by apply elem_of_nil in Hp];
    repeat (apply elem_of_cons; (by left) || right).
Qed.

(** X16. Every enumerator of [IndexType] is an enumerator of [DataType]
    with the same name and the same value: whenever [DataType] is
    well-formed for a header, so is [IndexType], and its enumerators are
    among those of [DataType]. *)
Theorem IndexType_within_DataType
  (h : Enums.Header) (D : list (string * Z)) :
  Enums.DataType h = Some D ->
  exists I, Enums.IndexType h = Some I /\ forall e, e ∈ I -> e ∈ D.
Proof.
  unfold Enums.DataType, Enums.IndexType. intros ED.
  destruct (Enums.enum h Enums.IndexType_items) as [I|] eqn:EI.
  - exists I. split; [done|]. intros [n v] He.
    apply (enum_elem h _ _ _ _ EI) in He as (m & Hm & M).
    apply (enum_elem h _ _ _ _ ED). exists m.
    split; [by apply IndexType_items_in_DataType_items | done].
  - apply enum_None in EI as (n & m & Hm & B).
    assert (N : Enums.enum h Enums.DataType_items = None).
    { apply enum_None. exists n, m.
      split; [by apply IndexType_items_in_DataType_items | done]. }
    congruence.
Qed.

Lemma IndexType_within_DataType_witness :
  exists I, Enums.IndexType Enums.small_header = Some I
            /\ forall e, e ∈ I
                         -> e ∈ [("Float", 5126); ("UnsignedByte", 5121);
                                 ("UnsignedShort", 5123);
                                 ("UnsignedInt", 5125)]%string.
Proof.
  apply (IndexType_within_DataType Enums.small_header).
  vm_compute. reflexivity.
Defined.

(** X17. The contents of a guarded enumeration ([DataType],
    [Texture2DType], [IndexType]).  A line [Name = GL_X] is there when the
    header defines the macro [GL_X], and then has the value of the macro,
    or when [OGLWRAP_DEFINE_EVERYTHING] is non-zero, and then, the macro
    missing, has the value the header declares [GL_X] with.  The
    enumeration is ill-formed exactly when a line that is there has a value
    outside [GLenum], or when [OGLWRAP_DEFINE_EVERYTHING] forces a line
    whose name the header neither defines nor declares.  Otherwise its
    enumerators are the lines that are there, in the order of declaration,
    each holding a [GLenum]. *)
Theorem guarded_enum_contents
  (h : Enums.Header) (items : list (string * string)) :
  let forced := pp_true (Enums.OGLWRAP_DEFINE_EVERYTHING h) in
  let initialiser macro :=
    match Enums.macros h !! macro with
    | Some v => Some v
    | None => if forced then Enums.declared h !! macro else None
    end in
  (Enums.enum h items = None
   <-> exists name macro,
         (name, macro) ∈ items
         /\ ((exists v, initialiser macro = Some v /\ ~ 0 <= v < 2 ^ 32)
             \/ (forced = true /\ initialiser macro = None)))
  /\ (forall L, Enums.enum h items = Some L ->
        L = omap (fun '(name, macro) =>
                    v ← initialiser macro; Some (name, v)) items
        /\ forall n v, (n, v) ∈ L -> 0 <= v < 2 ^ 32).
Proof.
  cbn zeta. split; [apply enum_None|]. intros L E.
  split; [by apply enum_Some_omap|]. intros n v.
  by apply (enum_values h items L n v).
Qed.

Lemma guarded_enum_contents_witness :
  Enums.DataType Enums.small_header
  = Some [("Float", 5126); ("UnsignedByte", 5121); ("UnsignedShort", 5123);
          ("UnsignedInt", 5125)]%string
  /\ Enums.IndexType Enums.enum_header
     = Some [("UnsignedByte", 5121); ("UnsignedShort", 5123);
             ("UnsignedInt", 5125)]%string
  /\ Enums.DataType Enums.enum_header = None
  /\ Enums.IndexType Enums.negative_header = None.
Proof.
  split; [|split; [|split]].
  - destruct (Enums.DataType Enums.small_header) as [L|] eqn:E.
    + f_equal.
      apply (proj2 (guarded_enum_contents Enums.small_header
                      Enums.DataType_items) L E).
    + vm_compute in E. discriminate E.
  - destruct (Enums.IndexType Enums.enum_header) as [L|] eqn:E.
    + f_equal.
      apply (proj2 (guarded_enum_contents Enums.enum_header
                      Enums.IndexType_items) L E).
    + vm_compute in E. discriminate E.
  - apply (proj1 (guarded_enum_contents Enums.enum_header
                    Enums.DataType_items)).
    exists "Byte"%string, "GL_BYTE"%string.
    split; [apply elem_of_cons; by left|]. right. by split.
  - apply (proj1 (guarded_enum_contents Enums.negative_header
                    Enums.IndexType_items)).
    exists "UnsignedByte"%string, "GL_UNSIGNED_BYTE"%string.
    split; [apply elem_of_cons; by left|]. left. exists (-1).
    split; [reflexivity | lia].
Defined.

(** ** The stream insertion operators *)

Lemma put_appended os s (st : gmap nat (list string)) :
  appended st (Insertion.put os s st) os [s].
Proof.
  unfold Insertion.put. split.
  - unfold Insertion.written at 1. by rewrite lookup_insert_eq.
  - intros os' N. by rewrite lookup_insert_ne.
Qed.

Lemma appended_trans (st1 st2 st3 : gmap nat (list string)) os l1 l2 :
  appended st1 st2 os l1 -> appended st2 st3 os l2 ->
  appended st1 st3 os (l1 ++ l2).
Proof.
  intros [W1 F1] [W2 F2]. split.
  - by rewrite W2, W1, app_assoc.
  - intros os' N. by rewrite F2, F1.
Qed.

Lemma appended_nil (st : gmap nat (list string)) os : appended st st os [].
Proof. split; [by rewrite app_nil_r | done]. Qed.

(** A loop whose every step appends to one stream appends the pieces of
    all its steps, in order. *)
Lemma fold_appended {A} os (step : gmap nat (list string) -> A
                                   -> gmap nat (list string))
  (pieces : A -> list string) (l : list A) :
  (forall st a, appended st (step st a) os (pieces a)) ->
  forall st, appended st (fold_left step l st) os (flat_map pieces l).
Proof.
  intros H. induction l as [|a l IH]; intros st; cbn [fold_left flat_map].
  - apply appended_nil.
  - apply (appended_trans st (step st a)); [apply H | apply IH].
Qed.

Lemma put_all_appended os l : forall st : gmap nat (list string),
  appended st (Insertion.put_all os l st) os l.
Proof.
  unfold Insertion.put_all. induction l as [|s l IH]; intros st.
  - apply appended_nil.
  - cbn [fold_left]. change (s :: l) with ([s] ++ l).
    apply (appended_trans st (Insertion.put os s st));
      [apply put_appended | apply IH].
Qed.

Lemma join_snoc sep (l : list string) a :
  Insertion.join sep (l ++ [a]) = flat_map (fun x => [x; sep]) l ++ [a].
Proof.
  induction l as [|x l IH]; [done|].
  cbn [app Insertion.join flat_map]. rewrite IH.
  by destruct l.
Qed.

Section InsertionFacts.

Context {T : Type} (show : T -> string).

#[local] Abbreviation sep := Insertion.separator.

#[local] Abbreviation cell := (cell_pieces show).

Lemma insert_row_appended n i (mat : Insertion.tmat) st :
  appended st (Insertion.insert_row show n i mat st) Insertion.cout
    (flat_map (fun j => cell n i mat j) (seq 0 n)).
Proof.
  unfold Insertion.insert_row. apply fold_appended. intros st' j.
  unfold cell_pieces.
  destruct (negb (i =? n - 1)%nat || negb (j =? n - 1)%nat).
  - apply (appended_trans st'
             (Insertion.put Insertion.cout (show (mat j i)) st') _
             Insertion.cout [show (mat j i)] [Insertion.separator]);
      apply put_appended.
  - apply put_appended.
Qed.

Lemma cells_before_last n i (mat : Insertion.tmat) m :
  (m <= n - 1)%nat ->
  flat_map (fun j => cell n i mat j) (seq 0 m)
  = flat_map (fun s => [s; sep]) (map (fun j => show (mat j i)) (seq 0 m)).
Proof.
  intros Hm. induction m as [|m IH]; [done|].
  rewrite seq_S, map_app, !flat_map_app, IH by lia. f_equal.
  cbn. unfold cell_pieces. destruct (Nat.eqb_spec m (n - 1)); [lia|].
  by rewrite orb_true_r.
Qed.

Lemma row_pieces n i (mat : Insertion.tmat) :
  (0 < n)%nat ->
  flat_map (fun j => cell n i mat j) (seq 0 n)
  = Insertion.row_text show n i mat
    ++ (if (i =? n - 1)%nat then [] else [sep]).
Proof.
  intros Hn. unfold Insertion.row_text.
  destruct n as [|m]; [lia|].
  rewrite seq_S, map_app, flat_map_app. cbn [map]. rewrite join_snoc.
  rewrite (cells_before_last (S m) i mat m) by lia.
  rewrite <- app_assoc. f_equal. cbn [flat_map map app Nat.add].
  unfold cell_pieces. replace (S m - 1)%nat with m by lia.
  rewrite Nat.eqb_refl, orb_false_r, app_nil_r.
  by destruct (i =? m)%nat.
Qed.

Lemma insert_tmat_appended n os (mat : Insertion.tmat) st :
  (0 < n)%nat ->
  appended st (Insertion.insert_tmat show n os mat st).2 Insertion.cout
    (Insertion.matrix_text show n mat).
Proof.
  intros Hn. unfold Insertion.insert_tmat, Insertion.matrix_text. cbn [snd].
  apply (fold_appended Insertion.cout
           (fun st i => Insertion.put Insertion.cout Insertion.endl
                          (Insertion.insert_row show n i mat st))).
  intros st' i. rewrite app_assoc, <- (row_pieces n i mat Hn).
  apply (appended_trans st' (Insertion.insert_row show n i mat st'));
    [apply insert_row_appended | apply put_appended].
Qed.

(** X18. The matrix operators write to [std::cout], not to the stream they
    are given: inserting a matrix into a stream [os] other than
    [std::cout] returns [os] with nothing added to it, and no stream but
    [std::cout] changes. *)
Theorem matrix_insertion_bypasses_the_stream
  (n os : nat) (mat : Insertion.tmat) (st : gmap nat (list string)) :
  os <> Insertion.cout ->
  (Insertion.insert_tmat show n os mat st).1 = os
  /\ Insertion.written (Insertion.insert_tmat show n os mat st).2 os
     = Insertion.written st os
  /\ (forall os', os' <> Insertion.cout ->
        (Insertion.insert_tmat show n os mat st).2 !! os' = st !! os')
  /\ ((0 < n)%nat ->
      Insertion.written (Insertion.insert_tmat show n os mat st).2 Insertion.cout
      <> Insertion.written st Insertion.cout).
Proof.
  intros N.
  assert (F : forall os', os' <> Insertion.cout ->
              (Insertion.insert_tmat show n os mat st).2 !! os' = st !! os').
  { unfold Insertion.insert_tmat. cbn [snd].
    apply (fold_appended Insertion.cout
             (fun st i => Insertion.put Insertion.cout Insertion.endl
                            (Insertion.insert_row show n i mat st))
             (fun i => flat_map (fun j => cell n i mat j) (seq 0 n)
                       ++ [Insertion.endl])).
    intros st' i.
    apply (appended_trans st' (Insertion.insert_row show n i mat st'));
      [apply insert_row_appended | apply put_appended]. }
  split; [done|]. split; [|split; [exact F|]].
  - unfold Insertion.written. by rewrite F.
  - intros Hn. destruct (insert_tmat_appended n os mat st Hn) as [W _].
    rewrite W. intros E. apply (f_equal length) in E.
    rewrite length_app in E.
    assert (P : (0 < length (Insertion.matrix_text show n mat))%nat).
    { unfold Insertion.matrix_text. destruct n as [|m]; [lia|].
      cbn [seq flat_map]. rewrite !length_app. cbn [length]. lia. }
    lia.
Qed.

(** X19. The layout of a matrix on [std::cout], for the sizes 2, 3 and 4:
    the matrix is written by rows, row [i] being [mat[0][i]], ...,
    [mat[n-1][i]] with [", "] between neighbours; every row but the last
    is followed by one more [", "], and every row ends with [std::endl].
    This holds also when the stream given is [std::cout] itself. *)
Theorem matrix_insertion_layout
  (os : nat) (mat : Insertion.tmat) (st : gmap nat (list string)) :
  Insertion.written (Insertion.insert_tmat2x2 show os mat st).2 Insertion.cout
  = Insertion.written st Insertion.cout ++ Insertion.matrix_text show 2 mat
  /\ Insertion.written (Insertion.insert_tmat3x3 show os mat st).2 Insertion.cout
     = Insertion.written st Insertion.cout ++ Insertion.matrix_text show 3 mat
  /\ Insertion.written (Insertion.insert_tmat4x4 show os mat st).2 Insertion.cout
     = Insertion.written st Insertion.cout ++ Insertion.matrix_text show 4 mat
  /\ Insertion.matrix_text show 2 mat
     = [show (mat 0 0); sep; show (mat 1 0); sep; Insertion.endl;
        show (mat 0 1); sep; show (mat 1 1); Insertion.endl]%nat.
Proof.
  unfold Insertion.insert_tmat2x2, Insertion.insert_tmat3x3,
    Insertion.insert_tmat4x4.
  split; [apply insert_tmat_appended; lia|].
  split; [apply insert_tmat_appended; lia|].
  split; [apply insert_tmat_appended; lia | reflexivity].
Qed.

(** X20. The vector operators write to the stream they are given and
    return it: each of the operators for [tvec2], [tvec3], [tvec4] and
    [tquat] appends the components of its operand with [", "] between
    neighbours and nothing after the last, and leaves every other stream
    as it was; a [tquat] is written as the [tvec4] of the same
    components. *)
Theorem vector_insertion_writes_components
  (os : nat) (x y z w : T) (st : gmap nat (list string)) :
  let unchanged (st' : gmap nat (list string)) :=
    forall os', os' <> os -> st' !! os' = st !! os' in
  let r2 := Insertion.insert_tvec2 show os (Insertion.mkvec2 x y) st in
  let r3 := Insertion.insert_tvec3 show os (Insertion.mkvec3 x y z) st in
  let r4 := Insertion.insert_tvec4 show os (Insertion.mkvec4 x y z w) st in
  let rq := Insertion.insert_tquat show os (Insertion.mkquat x y z w) st in
  (r2.1 = os
   /\ Insertion.written r2.2 os
      = Insertion.written st os ++ Insertion.join sep (map show [x; y])
   /\ unchanged r2.2)
  /\ (r3.1 = os
      /\ Insertion.written r3.2 os
         = Insertion.written st os ++ Insertion.join sep (map show [x; y; z])
      /\ unchanged r3.2)
  /\ (r4.1 = os
      /\ Insertion.written r4.2 os
         = Insertion.written st os
           ++ Insertion.join sep (map show [x; y; z; w])
      /\ unchanged r4.2)
  /\ (rq.1 = os
      /\ Insertion.written rq.2 os
         = Insertion.written st os
           ++ Insertion.join sep (map show [x; y; z; w])
      /\ unchanged rq.2)
  /\ rq = r4.
Proof.
  cbn zeta.
  unfold Insertion.insert_tvec2, Insertion.insert_tvec3,
    Insertion.insert_tvec4, Insertion.insert_tquat. cbn [fst snd].
  repeat split; apply put_all_appended.
Qed.

End InsertionFacts.

Lemma matrix_insertion_bypasses_the_stream_witness :
  Insertion.written
    (Insertion.insert_tmat (fun b : bool => if b then "1" else "0")%string
       2 1%nat (fun j i => Nat.eqb i j) ∅).2 1%nat
  = Insertion.written ∅ 1%nat.
Proof.
  apply (matrix_insertion_bypasses_the_stream
           (fun b : bool => if b then "1" else "0")%string
           2 1%nat (fun j i => Nat.eqb i j) ∅).
  discriminate.
Defined.

(** ** [IndexedBufferObject] *)

Module IndexedFacts.
Import IndexedBufferObject.

Lemma default_Some (x y : Z) : default x (Some y) = y.
Proof. reflexivity. Qed.

#[local] Ltac irun :=
  unfold mbind, mret, IGL_bind, IGL_ret, ithrow, igl; cbn beta iota.

Lemma isBound_irun T b index d :
  isBound T b index d
  = (inr (buffer_ b =? to_GLuint (to_GLint (bound_at d T (to_GLuint index)))),
     mkIndexed (indexed_binding d)
       (indexed_calls d ++ [GetIntegeri_v (BUFFER_BINDING T) (to_GLuint index)])).
Proof. reflexivity. Qed.

Lemma bindBase_irun T b index d :
  bindBase T b index d
  = (inr (), mkIndexed (<[(T, to_GLuint index) := buffer_ b]> (indexed_binding d))
               (indexed_calls d
                ++ [BindBufferBase T (to_GLuint index) (buffer_ b)])).
Proof. reflexivity. Qed.

Lemma bindRange_irun T b index offset size d :
  bindRange T b index offset size d
  = (inr (), mkIndexed (<[(T, to_GLuint index) := to_GLuint (to_GLintptr offset)]>
                          (indexed_binding d))
               (indexed_calls d
                ++ [BindBufferRange T (to_GLuint index)
                      (to_GLuint (to_GLintptr offset))
                      (to_GLintptr (to_GLsizeiptr size))
                      (to_GLsizeiptr (buffer_ b))])).
Proof. reflexivity. Qed.

Lemma to_GLuint_is_GLuint x : is_GLuint (to_GLuint x).
Proof.
  unfold is_GLuint, to_GLuint, Int.wrap_unsigned. apply Z.mod_pos_bound. lia.
Qed.

Lemma UnbindBase_irun T index d :
  UnbindBase T index d
  = (inr (), mkIndexed (<[(T, to_GLuint index) := 0]> (indexed_binding d))
               (indexed_calls d ++ [BindBufferBase T (to_GLuint index) 0])).
Proof. reflexivity. Qed.

(** X21. The binding points of an indexed target are independent: after
    [A.bindBase(i)] and [B.bindBase(j)], [B.isBound(j)] is true, and
    [A.isBound(i)] is true when the indices differ (as [GLuint] values) and
    otherwise tells whether [A] and [B] hold the same buffer.
    [A.bindRange(i, offset, size)] hands [offset], [size] and the buffer to
    [glBindBufferRange] where the function takes the buffer, the offset and
    the size: the buffer bound at index [i] is the one named by [offset],
    [A.isBound(i)] afterwards tells whether the name of [A] is [offset],
    and the other indices keep their buffers. *)
Theorem indexed_points_are_independent
  (T i j offset size : Z) (A B : BufferObject.t) (d : IndexedDriver) :
  is_GLuint (buffer_ A) -> is_GLuint (buffer_ B) ->
  ((bindBase T A i;; bindBase T B j;;
    a ← isBound T A i; b ← isBound T B j; mret (a, b)) d).1
  = inr (if to_GLuint i =? to_GLuint j then buffer_ A =? buffer_ B else true,
         true)
  /\ (let r := bindRange T A i offset size d in
      r.1 = inr ()
      /\ indexed_calls r.2
         = indexed_calls d
           ++ [BindBufferRange T (to_GLuint i)
                 (to_GLuint (to_GLintptr offset))
                 (to_GLintptr (to_GLsizeiptr size))
                 (to_GLsizeiptr (buffer_ A))]
      /\ bound_at r.2 T (to_GLuint i) = to_GLuint (to_GLintptr offset)
      /\ (isBound T A i r.2).1
         = inr (buffer_ A =? to_GLuint (to_GLintptr offset))
      /\ (forall k, to_GLuint k <> to_GLuint i ->
            bound_at r.2 T (to_GLuint k) = bound_at d T (to_GLuint k))).
Proof.
  intros HA HB. split.
  - irun. rewrite !bindBase_irun. cbn beta iota. rewrite !isBound_irun.
    cbn [fst]. unfold bound_at. cbn [indexed_binding].
    rewrite lookup_insert_eq. rewrite !default_Some.
    rewrite (GLuint_of_GLint _ HB), Z.eqb_refl. do 2 f_equal.
    destruct (Z.eqb_spec (to_GLuint i) (to_GLuint j)) as [->|N].
    + rewrite lookup_insert_eq. rewrite !default_Some.
      by rewrite (GLuint_of_GLint _ HB).
    + rewrite lookup_insert_ne by congruence. rewrite lookup_insert_eq.
      rewrite !default_Some. by rewrite (GLuint_of_GLint _ HA), Z.eqb_refl.
  - cbn zeta. rewrite bindRange_irun. cbn [fst snd indexed_calls].
    assert (Bd : bound_at
                   (mkIndexed
                      (<[(T, to_GLuint i) := to_GLuint (to_GLintptr offset)]>
                         (indexed_binding d))
                      (indexed_calls d
                       ++ [BindBufferRange T (to_GLuint i)
                             (to_GLuint (to_GLintptr offset))
                             (to_GLintptr (to_GLsizeiptr size))
                             (to_GLsizeiptr (buffer_ A))]))
                   T (to_GLuint i)
                 = to_GLuint (to_GLintptr offset)).
    { unfold bound_at. cbn [indexed_binding].
      by rewrite lookup_insert_eq, default_Some. }
    split; [done|]. split; [done|]. split; [exact Bd|]. split.
    + rewrite isBound_irun. cbn [fst]. rewrite Bd.
      by rewrite (GLuint_of_GLint _ (to_GLuint_is_GLuint _)).
    + intros k N. unfold bound_at. cbn [indexed_binding].
      by rewrite lookup_insert_ne by congruence.
Qed.

(** A buffer bound with [bindRange] at offset [0] is not found bound, and
    one whose name is the offset is. *)
Lemma indexed_points_are_independent_witness :
  ((bindBase BufferType.Uniform (BufferObject.mk 1) 0;;
    bindBase BufferType.Uniform (BufferObject.mk 2) 1;;
    a ← isBound BufferType.Uniform (BufferObject.mk 1) 0;
    b ← isBound BufferType.Uniform (BufferObject.mk 2) 1;
    mret (a, b)) idriver0).1 = inr (true, true)
  /\ (isBound BufferType.Uniform (BufferObject.mk 1) 0
        (bindRange BufferType.Uniform (BufferObject.mk 1) 0 0 16 idriver0).2).1
     = inr false
  /\ (isBound BufferType.Uniform (BufferObject.mk 1) 0
        (bindRange BufferType.Uniform (BufferObject.mk 1) 0 1 16 idriver0).2).1
     = inr true.
Proof.
  assert (H1 : is_GLuint (buffer_ (BufferObject.mk 1)))
    by (unfold is_GLuint; simpl; lia).
  assert (H2 : is_GLuint (buffer_ (BufferObject.mk 2)))
    by (unfold is_GLuint; simpl; lia).
  split; [|split].
  - exact (proj1 (indexed_points_are_independent BufferType.Uniform 0 1 0 16
                    (BufferObject.mk 1) (BufferObject.mk 2) idriver0 H1 H2)).
  - exact (proj1 (proj2 (proj2 (proj2 (proj2
             (indexed_points_are_independent BufferType.Uniform 0 1 0 16
                (BufferObject.mk 1) (BufferObject.mk 2) idriver0 H1 H2)))))).
  - exact (proj1 (proj2 (proj2 (proj2 (proj2
             (indexed_points_are_independent BufferType.Uniform 0 1 1 16
                (BufferObject.mk 1) (BufferObject.mk 2) idriver0 H1 H2)))))).
Defined.

Lemma unbindBase_irun cfg T b index d :
  unbindBase cfg T b index d
  = let queried :=
      mkIndexed (indexed_binding d)
        (indexed_calls d
         ++ [GetIntegeri_v (BUFFER_BINDING T) (to_GLuint index)]) in
    if bindcheck cfg then
      if buffer_ b =? to_GLuint (to_GLint (bound_at d T (to_GLuint index)))
      then UnbindBase T index queried
      else (inl BindingError, queried)
    else UnbindBase T index d.
Proof.
  unfold unbindBase, CHECK_BINDING2_EXPLICIT.
  destruct (bindcheck cfg); irun; [|done].
  rewrite isBound_irun. cbn beta iota zeta.
  by destruct (buffer_ b =? _).
Qed.

(** X22. [unbindBase(index)]: with validation enabled and the buffer not
    bound at the index, it fails with a BindingError after the one query
    and the binding point keeps its buffer; otherwise it binds [0] at the
    index, after which a buffer with a name of its own is no longer bound
    there. *)
Theorem unbindBase_checks_the_index
  (cfg : Config) (T index : Z) (b : BufferObject.t) (d : IndexedDriver) :
  is_name (buffer_ b) ->
  let current :=
    buffer_ b =? to_GLuint (to_GLint (bound_at d T (to_GLuint index))) in
  let d' := (unbindBase cfg T b index d).2 in
  (isBound T b index d').1 = inr false
  /\ if bindcheck cfg && negb current then
       (unbindBase cfg T b index d).1 = inl BindingError
       /\ indexed_binding d' = indexed_binding d
       /\ indexed_calls d'
          = indexed_calls d
            ++ [GetIntegeri_v (BUFFER_BINDING T) (to_GLuint index)]
     else
       (unbindBase cfg T b index d).1 = inr ()
       /\ bound_at d' T (to_GLuint index) = 0
       /\ indexed_calls d'
          = indexed_calls d
            ++ (if bindcheck cfg
                then [GetIntegeri_v (BUFFER_BINDING T) (to_GLuint index)]
                else [])
            ++ [BindBufferBase T (to_GLuint index) 0].
Proof.
  intros [Hpos Hlt] current d'. subst d'.
  rewrite unbindBase_irun. cbn zeta. fold current.
  assert (Z0 : (buffer_ b =? to_GLuint (to_GLint 0)) = false).
  { apply Z.eqb_neq. rewrite GLuint_of_GLint by (unfold is_GLuint; lia). lia. }
  assert (U : forall d0,
             (isBound T b index (UnbindBase T index d0).2).1 = inr false
             /\ bound_at (UnbindBase T index d0).2 T (to_GLuint index) = 0).
  { intros d0. rewrite UnbindBase_irun. cbn [snd]. rewrite isBound_irun.
    cbn [fst]. unfold bound_at. cbn [indexed_binding].
    rewrite lookup_insert_eq, !default_Some. by rewrite Z0. }
  destruct (bindcheck cfg); cbn [andb].
  - destruct current eqn:C; cbn [negb].
    + split; [apply U|]. split; [done|]. split; [apply U|].
      rewrite UnbindBase_irun. cbn [snd indexed_calls].
      by rewrite <- app_assoc.
    + cbn [fst snd]. split; [|done]. rewrite isBound_irun.
      cbn [fst]. unfold bound_at. cbn [indexed_binding].
      subst current. unfold bound_at in C. by rewrite C.
  - split; [apply U|]. split; [done|]. split; [apply U|].
    by rewrite UnbindBase_irun.
Qed.

Lemma unbindBase_checks_the_index_witness :
  (isBound BufferType.Uniform (BufferObject.mk 1) 0
     (unbindBase default_config BufferType.Uniform (BufferObject.mk 1) 0
        idriver0).2).1 = inr false.
Proof.
  apply (unbindBase_checks_the_index default_config BufferType.Uniform 0
           (BufferObject.mk 1) idriver0).
  unfold is_name. simpl. lia.
Defined.

End IndexedFacts.

Lemma of_list_sets_listed_flags_witness :
  Bitfield.test BufferMapAccessFlags_value false
    BufferObject.Map_range_default_access Write_Bit = true
  /\ Bitfield.test WideFlags_value true
       (Bitfield.of_list WideFlags_value [Hi; Lo]) Lo = true
  /\ Bitfield.test WideFlags_value true
       (Bitfield.of_list WideFlags_value [Hi; Lo]) Hi = false.
Proof.
  split; [|split].
  - apply (proj1 (proj2 (proj2
             (of_list_sets_listed_flags BufferMapAccessFlags_value false
                [Read_Bit; Write_Bit])))).
    + apply elem_of_cons. right. apply elem_of_cons. by left.
    + by left.
  - apply (proj1 (proj2 (proj2
             (of_list_sets_listed_flags WideFlags_value true [Hi; Lo])))).
    + apply elem_of_cons. right. apply elem_of_cons. by left.
    + right. simpl. lia.
  - apply (proj2 (proj2 (proj2
             (of_list_sets_listed_flags WideFlags_value true [Hi; Lo])))).
    intros [|]; [done|]. simpl in *. lia.
Defined.

Lemma vector_insertion_writes_components_witness :
  Insertion.written
    (Insertion.insert_tvec2 (fun b : bool => if b then "1" else "0")%string
       1%nat (Insertion.mkvec2 true false) ∅).2 1%nat
  = ["1"; ", "; "0"]%string
  /\ (Insertion.insert_tvec3 (fun b : bool => if b then "1" else "0")%string
        1%nat (Insertion.mkvec3 true false true) ∅).2 !! Insertion.cout
     = (∅ : gmap nat (list string)) !! Insertion.cout.
Proof.
  pose proof (vector_insertion_writes_components
                (fun b : bool => if b then "1" else "0")%string
                1%nat true false true true ∅) as (V2 & V3 & _).
  split.
  - exact (proj1 (proj2 V2)).
  - apply (proj2 (proj2 V3)). discriminate.
Defined.
